(** * Bundled ray handlers of the MCRT renderer (pbr/handlers)

    A shallow embedding of [RayHandlers.cc] and [XPURayHandlers.cc].
    Floats are modelled by exact rationals; the collaborators the handlers
    call (accelerator, integrator, lights, AOV accounting) are parameters of
    Sections, and every call the handlers make into them is recorded as an
    event in a trace, so that the order and the number of calls can be
    stated. *)

From Stdlib Require Import List Arith Lia Bool ZArith QArith Qabs Permutation Sorted.
Import ListNotations.
Close Scope Q_scope.

(** ** Colours *)

Record Color := mkColor { cr : Q; cg : Q; cb : Q }.

Definition sBlack : Color := mkColor 0 0 0.
Definition sWhite : Color := mkColor 1 1 1.
#[local] Open Scope Q_scope.

(** [Color * Color], [Color + Color] and [float * Color] of scene_rdl2::math. *)
Definition cmul (a b : Color) : Color :=
  mkColor (cr a * cr b) (cg a * cg b) (cb a * cb b).
Definition cadd (a b : Color) : Color :=
  mkColor (cr a + cr b) (cg a + cg b) (cb a + cb b).
Definition cscale (s : Q) (c : Color) : Color :=
  mkColor (s * cr c) (s * cg c) (s * cb c).

(** Equality of colours up to [Qeq], channel by channel. *)
Definition ceq (a b : Color) : Prop :=
  Qeq (cr a) (cr b) /\ Qeq (cg a) (cg b) /\ Qeq (cb a) (cb b).

(** Strict comparison of floats. *)
Definition Qlt_bool (x y : Q) : bool := negb (Qle_bool y x).
Close Scope Q_scope.

(** ** Data model *)

(** Handles into the per-thread side-data tables; [nullHandle] is the
    sentinel the code compares against. *)
Definition Handle := nat.
Definition nullHandle : Handle := 0%nat.

Inductive OcclTestType := STANDARD | FORCE_NOT_OCCLUDED.

Definition OcclTestType_eqb (a b : OcclTestType) : bool :=
  match a, b with
  | STANDARD, STANDARD | FORCE_NOT_OCCLUDED, FORCE_NOT_OCCLUDED => true
  | _, _ => false
  end.

Record Light := mkLight {
  lightId : nat;
  getClearRadius : Q;
  getClearRadiusFalloffDistance : Q;
  getIsOpaqueInAlpha : bool
}.

(** The fields of [BundledOcclRay] the handlers read or write.  [mRayId]
    stands for the ray's identity (its address in the batch). *)
Record BundledOcclRay := mkOcclRay {
  mRayId : nat;
  mOcclTestType : OcclTestType;
  mMaxT : Q;
  mRadiance : Color;
  mPixel : nat;
  mDataPtrHandle : Handle;
  mDeepDataHandle : Handle;
  mCryptomatteDataHandle : Handle
}.

Definition setRadiance (r : BundledOcclRay) (c : Color) : BundledOcclRay :=
  mkOcclRay (mRayId r) (mOcclTestType r) (mMaxT r) c (mPixel r)
            (mDataPtrHandle r) (mDeepDataHandle r) (mCryptomatteDataHandle r).

(** [BundledRadiance]: RGB, alpha, path pixel weight, pixel and the
    forwarded deep / cryptomatte handles. *)
Record BundledRadiance := mkBundledRadiance {
  brRadiance : Color;
  brAlpha : Q;
  brPathPixelWeight : Q;
  brPixel : nat;
  brDeepDataHandle : Handle;
  brCryptomatteDataHandle : Handle
}.

(** Modelled from the spec: [fillBundledRadiance] (RayHandlerUtils.h, not
    part of the sources): the retired contribution carries the ray's RGB
    radiance, its destination pixel and its deep / cryptomatte handles;
    occlusion contributions add no alpha and no pixel weight. *)
Definition fillBundledRadiance (r : BundledOcclRay) : BundledRadiance :=
  mkBundledRadiance (mRadiance r) 0 0 (mPixel r)
                    (mDeepDataHandle r) (mCryptomatteDataHandle r).

(** Modelled from the spec: [calculateShadowFalloff] (PathIntegratorUtil,
    not part of the sources), "a falloff-weighted partial contribution":
    the colour is weighted by [1 - t], [t] the position of the distance in
    the falloff band [clearRadius, clearRadius + falloffDistance], clamped
    to [0,1]. *)
Definition clamp01 (x : Q) : Q :=
  if Qle_bool x 0 then 0 else if Qle_bool 1 x then 1 else x.

Definition calculateShadowFalloff (light : Light) (dist : Q) (c : Color) : Color :=
  let t := clamp01 ((dist - getClearRadius light) / getClearRadiusFalloffDistance light)%Q in
  cscale (1 - t)%Q c.

Inductive LpePrefix := sLpePrefixNone | sLpePrefixUnoccluded.

(** The read-only frame state consulted by the occlusion resolvers. *)
Record FrameState := mkFrameState {
  getEnableShadowing : bool;
  hasLpePrefixUnoccluded : bool
}.

(** Calls an occlusion resolver makes into the accelerator, the AOV
    system and the side-data tables. *)
Inductive OcclEvent :=
| EvOccluded (r : BundledOcclRay)
| EvGPUOccluded (numRays : nat)
| EvPresence (r : BundledOcclRay)
| EvLightAovs (r : BundledOcclRay) (scale : Color) (tr : option Color) (p : LpePrefix)
| EvVisibilityAovs (r : BundledOcclRay) (v : Q)
| EvVisibilityAovsOccluded (r : BundledOcclRay)
| EvFreeList (h : Handle)
| EvReleaseDeepData (h : Handle)
| EvReleaseCryptomatteData (h : Handle).

(** Recognisers of the side-data calls made for a given handle. *)
Definition freesList (h : Handle) (e : OcclEvent) : bool :=
  match e with EvFreeList h' => Nat.eqb h h' | _ => false end.
Definition releasesDeep (h : Handle) (e : OcclEvent) : bool :=
  match e with EvReleaseDeepData h' => Nat.eqb h h' | _ => false end.
Definition releasesCrypto (h : Handle) (e : OcclEvent) : bool :=
  match e with EvReleaseCryptomatteData h' => Nat.eqb h h' | _ => false end.


(** Writes into the [results] array, as (index, value) pairs. *)
Definition indexFrom {A} (k : nat) (l : list A) : list (nat * A) :=
  combine (seq k (length l)) l.

(** ** [std::partition] *)

(** The bidirectional-iterator [__partition] of libstdc++, which
    [std::partition] runs on a pointer range: [first] advances over
    elements satisfying the predicate, [last] retreats over elements that
    do not, and the two found are swapped. *)
Section StdPartition.
Context {A : Type} (pred : A -> bool).

Fixpoint set_nth (l : list A) (i : nat) (x : A) : list A :=
  match l, i with
  | [], _ => []
  | _ :: t, 0 => x :: t
  | h :: t, S i => h :: set_nth t i x
  end.

Definition iter_swap (l : list A) (i j : nat) : list A :=
  match nth_error l i, nth_error l j with
  | Some xi, Some xj => set_nth (set_nth l i xj) j xi
  | _, _ => l
  end.

(** [while (first != last && pred( *first)) ++first;] *)
Fixpoint advance_first (fuel : nat) (a : list A) (first last : nat) : nat :=
  match fuel with
  | 0 => first
  | S f =>
      if Nat.eqb first last then first else
      match nth_error a first with
      | Some x => if pred x then advance_first f a (S first) last else first
      | None => first
      end
  end.

(** [while (first != last && !pred( *last)) --last;] *)
Fixpoint retreat_last (fuel : nat) (a : list A) (first last : nat) : nat :=
  match fuel with
  | 0 => last
  | S f =>
      if Nat.eqb first last then last else
      match nth_error a last with
      | Some x => if pred x then last else retreat_last f a first (Nat.pred last)
      | None => last
      end
  end.

Fixpoint partition_loop (fuel : nat) (a : list A) (first last : nat) : list A * nat :=
  match fuel with
  | 0 => (a, first)
  | S f =>
      let first := advance_first (length a) a first last in
      if Nat.eqb first last then (a, first) else
      let last := retreat_last (length a) a first (Nat.pred last) in
      if Nat.eqb first last then (a, first) else
      partition_loop f (iter_swap a first last) (S first) last
  end.

(** The permuted range and the index of the first element failing [pred]. *)
Definition std_partition (a : list A) : list A * nat :=
  partition_loop (S (length a)) a 0 (length a).

End StdPartition.

Section OcclusionResolvers.

(** Collaborators: [getTransmittance], [reduceTransparency], the light
    stored in the first item of a side-data list
    ([getListItem(h, 0)->mLight]), the CPU accelerator's [occluded] test,
    the presence accumulation march and scene_rdl2's [isEqual]. *)
Variable getTransmittance : BundledOcclRay -> Color.
Variable reduceTransparency : Color -> Q.
Variable listLight : Handle -> Light.
Variable accelOccluded : BundledOcclRay -> bool.
Variable accumulateRayPresence : Light -> BundledOcclRay -> Q.
Variable isEqual : Q -> Q -> bool.

(** *** [areSingleRaysOccluded] *)

(** Body of the loop for one ray once the occlusion answer is known:
    the radiances it fills (in order) and the calls it makes. *)
Definition areSingleRaysOccluded_body (fs : FrameState) (isOccluded : bool)
    (occlRay : BundledOcclRay) : list BundledRadiance * list OcclEvent :=
  let disableShadowing := negb (getEnableShadowing fs) in
  let '(filled, ev, occlRay) :=
    if negb isOccluded || disableShadowing then
      let tr := getTransmittance occlRay in
      let occlRay := setRadiance occlRay (cmul (mRadiance occlRay) tr) in
      ([fillBundledRadiance occlRay],
       (if negb (Nat.eqb (mDataPtrHandle occlRay) nullHandle) then
          [EvLightAovs occlRay sWhite (Some tr) sLpePrefixUnoccluded;
           EvVisibilityAovs occlRay (reduceTransparency tr)]
        else []),
       occlRay)
    else if negb (Nat.eqb (mDataPtrHandle occlRay) nullHandle) then
      let light := listLight (mDataPtrHandle occlRay) in
      let '(filled, occlRay) :=
        if negb (Qeq_bool (getClearRadiusFalloffDistance light) 0%Q) &&
           Qlt_bool (mMaxT occlRay)
                    (getClearRadius light + getClearRadiusFalloffDistance light)%Q then
          let tr := getTransmittance occlRay in
          let occlRay := setRadiance occlRay
                (calculateShadowFalloff light (mMaxT occlRay) (cmul tr (mRadiance occlRay))) in
          ([fillBundledRadiance occlRay], occlRay)
        else ([], occlRay) in
      (filled,
       EvVisibilityAovsOccluded occlRay ::
       (if hasLpePrefixUnoccluded fs then
          [EvLightAovs occlRay sWhite None sLpePrefixUnoccluded] else []),
       occlRay)
    else ([], [], occlRay) in
  (filled,
   ev ++ (if negb (Nat.eqb (mDataPtrHandle occlRay) nullHandle)
          then [EvFreeList (mDataPtrHandle occlRay)] else [])
      ++ [EvReleaseDeepData (mDeepDataHandle occlRay);
          EvReleaseCryptomatteData (mCryptomatteDataHandle occlRay)]).

(** The loop, [numRadiancesFilled] threaded through; returns the final
    count, the writes into [results] and the calls. *)
Fixpoint areSingleRaysOccluded_loop (fs : FrameState) (numRadiancesFilled : nat)
    (entries : list BundledOcclRay)
    : nat * list (nat * BundledRadiance) * list OcclEvent :=
  match entries with
  | [] => (numRadiancesFilled, [], [])
  | occlRay :: rest =>
      let isOccluded := accelOccluded occlRay in
      let '(filled, ev) := areSingleRaysOccluded_body fs isOccluded occlRay in
      let '(n, w, e) :=
        areSingleRaysOccluded_loop fs (numRadiancesFilled + length filled) rest in
      (n, indexFrom numRadiancesFilled filled ++ w, EvOccluded occlRay :: ev ++ e)
  end.

Definition areSingleRaysOccluded (fs : FrameState) (entries : list BundledOcclRay)
    : nat * list (nat * BundledRadiance) * list OcclEvent :=
  areSingleRaysOccluded_loop fs 0 entries.

(** *** [forceSingleRaysUnoccluded] *)

Definition forceSingleRaysUnoccluded_body (occlRay : BundledOcclRay)
    : BundledRadiance * list OcclEvent :=
  let tr := getTransmittance occlRay in
  let occlRay := setRadiance occlRay (cmul (mRadiance occlRay) tr) in
  (fillBundledRadiance occlRay,
   (if negb (Nat.eqb (mDataPtrHandle occlRay) nullHandle) then
      [EvLightAovs occlRay tr None sLpePrefixNone] else [])
   ++ (if negb (Nat.eqb (mDataPtrHandle occlRay) nullHandle)
       then [EvFreeList (mDataPtrHandle occlRay)] else [])
   ++ [EvReleaseDeepData (mDeepDataHandle occlRay);
       EvReleaseCryptomatteData (mCryptomatteDataHandle occlRay)]).

(** [results[i]] is written for the [i]-th ray. *)
Fixpoint forceSingleRaysUnoccluded_loop (i : nat) (entries : list BundledOcclRay)
    : list (nat * BundledRadiance) * list OcclEvent :=
  match entries with
  | [] => ([], [])
  | occlRay :: rest =>
      let '(rad, ev) := forceSingleRaysUnoccluded_body occlRay in
      let '(w, e) := forceSingleRaysUnoccluded_loop (S i) rest in
      ((i, rad) :: w, ev ++ e)
  end.

Definition forceSingleRaysUnoccluded (entries : list BundledOcclRay)
    : nat * list (nat * BundledRadiance) * list OcclEvent :=
  let '(w, e) := forceSingleRaysUnoccluded_loop 0 entries in
  (length entries, w, e).

(** *** [computePresenceShadowsQueriesBundled] *)

(** [result->mRadiance[k] *= (1 - presence)] for the three channels. *)
Definition scaleResultRadiance (r : BundledRadiance) (s : Q) : BundledRadiance :=
  mkBundledRadiance
    (mkColor (cr (brRadiance r) * s) (cg (brRadiance r) * s) (cb (brRadiance r) * s))%Q
    (brAlpha r) (brPathPixelWeight r) (brPixel r)
    (brDeepDataHandle r) (brCryptomatteDataHandle r).

Definition computePresenceShadowsQueriesBundled_body (fs : FrameState)
    (occlRay : BundledOcclRay) : BundledRadiance * list OcclEvent :=
  let disableShadowing := negb (getEnableShadowing fs) in
  (* we always have the data block here *)
  let light := listLight (mDataPtrHandle occlRay) in
  let presence := accumulateRayPresence light occlRay in
  let tr := getTransmittance occlRay in
  let occlRay' := setRadiance occlRay (cmul (mRadiance occlRay) tr) in
  let result :=
    if isEqual presence 0%Q || disableShadowing then fillBundledRadiance occlRay'
    else scaleResultRadiance (fillBundledRadiance occlRay') (1 - presence)%Q in
  let occlusionValue := cscale (1 - presence)%Q tr in
  (result,
   [EvPresence occlRay;
    EvLightAovs occlRay' sWhite (Some occlusionValue) sLpePrefixUnoccluded;
    EvVisibilityAovs occlRay' (reduceTransparency occlusionValue);
    EvFreeList (mDataPtrHandle occlRay');
    EvReleaseCryptomatteData (mCryptomatteDataHandle occlRay')]).

Fixpoint computePresenceShadowsQueriesBundled_loop (fs : FrameState)
    (numRadiancesFilled : nat) (entries : list BundledOcclRay)
    : nat * list (nat * BundledRadiance) * list OcclEvent :=
  match entries with
  | [] => (numRadiancesFilled, [], [])
  | occlRay :: rest =>
      let '(result, ev) := computePresenceShadowsQueriesBundled_body fs occlRay in
      let '(n, w, e) :=
        computePresenceShadowsQueriesBundled_loop fs (S numRadiancesFilled) rest in
      (n, (numRadiancesFilled, result) :: w, ev ++ e)
  end.

Definition computePresenceShadowsQueriesBundled (fs : FrameState)
    (entries : list BundledOcclRay)
    : nat * list (nat * BundledRadiance) * list OcclEvent :=
  match entries with
  | [] => (0, [], [])
  | _ => computePresenceShadowsQueriesBundled_loop fs 0 entries
  end.

(** *** [computeXPUOcclusionQueriesOnGPU] *)

(** Body of the result loop for ray [i]; [isOccluded] is the GPU's output
    occlusion buffer. *)
Definition computeXPUOcclusionQueriesOnGPU_body (fs : FrameState)
    (isOccluded : nat -> bool) (i : nat) (occlRay : BundledOcclRay)
    : list BundledRadiance * list OcclEvent :=
  let disableShadowing := negb (getEnableShadowing fs) in
  let '(filled, ev, occlRay) :=
    if OcclTestType_eqb (mOcclTestType occlRay) FORCE_NOT_OCCLUDED then
      (* See forceSingleRaysUnoccluded() *)
      let tr := getTransmittance occlRay in
      let occlRay := setRadiance occlRay (cmul (mRadiance occlRay) tr) in
      ([fillBundledRadiance occlRay],
       (if negb (Nat.eqb (mDataPtrHandle occlRay) nullHandle) then
          [EvLightAovs occlRay tr None sLpePrefixNone] else []),
       occlRay)
    else if negb (isOccluded i) || disableShadowing then
      let tr := getTransmittance occlRay in
      let occlRay := setRadiance occlRay (cmul (mRadiance occlRay) tr) in
      ([fillBundledRadiance occlRay],
       (if negb (Nat.eqb (mDataPtrHandle occlRay) nullHandle) then
          [EvLightAovs occlRay sWhite (Some tr) sLpePrefixUnoccluded;
           EvVisibilityAovs occlRay (reduceTransparency tr)]
        else []),
       occlRay)
    else if negb (Nat.eqb (mDataPtrHandle occlRay) nullHandle) then
      let light := listLight (mDataPtrHandle occlRay) in
      let '(filled, occlRay) :=
        if negb (Qeq_bool (getClearRadiusFalloffDistance light) 0%Q) &&
           Qlt_bool (mMaxT occlRay)
                    (getClearRadius light + getClearRadiusFalloffDistance light)%Q then
          let tr := getTransmittance occlRay in
          let occlRay := setRadiance occlRay
                (calculateShadowFalloff light (mMaxT occlRay) (cmul tr (mRadiance occlRay))) in
          ([fillBundledRadiance occlRay], occlRay)
        else ([], occlRay) in
      (filled,
       EvVisibilityAovsOccluded occlRay ::
       (if hasLpePrefixUnoccluded fs then
          [EvLightAovs occlRay sWhite None sLpePrefixUnoccluded] else []),
       occlRay)
    else ([], [], occlRay) in
  (filled,
   ev ++ (if negb (Nat.eqb (mDataPtrHandle occlRay) nullHandle)
          then [EvFreeList (mDataPtrHandle occlRay)] else [])
      ++ [EvReleaseDeepData (mDeepDataHandle occlRay)]).

Fixpoint computeXPUOcclusionQueriesOnGPU_loop (fs : FrameState)
    (isOccluded : nat -> bool) (i numRadiancesFilled : nat)
    (rays : list BundledOcclRay)
    : nat * list (nat * BundledRadiance) * list OcclEvent :=
  match rays with
  | [] => (numRadiancesFilled, [], [])
  | occlRay :: rest =>
      let '(filled, ev) := computeXPUOcclusionQueriesOnGPU_body fs isOccluded i occlRay in
      let '(n, w, e) :=
        computeXPUOcclusionQueriesOnGPU_loop fs isOccluded (S i)
          (numRadiancesFilled + length filled) rest in
      (n, indexFrom numRadiancesFilled filled ++ w, ev ++ e)
  end.

(** The GPU call answers for the whole batch at once ([isOccluded]). *)
Definition computeXPUOcclusionQueriesOnGPU (fs : FrameState)
    (isOccluded : nat -> bool) (rays : list BundledOcclRay)
    : nat * list (nat * BundledRadiance) * list OcclEvent :=
  let '(n, w, e) := computeXPUOcclusionQueriesOnGPU_loop fs isOccluded 0 0 rays in
  (n, w, EvGPUOccluded (length rays) :: e).

(** *** [computeOcclusionQueriesBundled] *)

Definition isStandard (r : BundledOcclRay) : bool :=
  OcclTestType_eqb (mOcclTestType r) STANDARD.

(** Writes made through [results + k]. *)
Definition shiftWrites (k : nat) (w : list (nat * BundledRadiance))
    : list (nat * BundledRadiance) :=
  map (fun p => (k + fst p, snd p)) w.

(** Returns the entry array as permuted in place, the total count, the
    writes into [results] and the calls (ray statistics omitted). *)
Definition computeOcclusionQueriesBundled (fs : FrameState)
    (entries : list BundledOcclRay)
    : list BundledOcclRay * (nat * list (nat * BundledRadiance) * list OcclEvent) :=
  let '(entries, numStandardEntries) := std_partition isStandard entries in
  let numNoOpEntries := length entries - numStandardEntries in
  let noOpEntries := skipn numStandardEntries entries in
  let '(totalRadiancesFilled, w1, e1) :=
    if Nat.eqb numStandardEntries 0 then (0, [], [])
    else areSingleRaysOccluded fs (firstn numStandardEntries entries) in
  let '(totalRadiancesFilled, w2, e2) :=
    if Nat.eqb numNoOpEntries 0 then (totalRadiancesFilled, [], [])
    else
      let '(n, w, e) := forceSingleRaysUnoccluded noOpEntries in
      (totalRadiancesFilled + n, shiftWrites totalRadiancesFilled w, e) in
  (entries, (totalRadiancesFilled, w1 ++ w2, e1 ++ e2)).

End OcclusionResolvers.

(** ** Bundle handlers

    The [results] array is allocated with [numEntries] slots; a resolver
    hands back its count and its writes.  [readResult w j] is slot [j]
    after the writes ([None]: never written). *)

Definition readResult (w : list (nat * BundledRadiance)) (j : nat)
    : option BundledRadiance :=
  match find (fun p => Nat.eqb (fst p) j) (rev w) with
  | Some p => Some (snd p)
  | None => None
  end.

(** [MNRY_ASSERT(numRadiancesFilled <= numEntries)], then
    [addRadianceQueueEntries(numRadiancesFilled, results)]: the assertion's
    outcome and the slots queued.  The CHECK_CANCELLATION early return
    between the two (RayHandlers.cc lines 741 and 767, XPURayHandlers.cc
    line 220) is not modelled: this is the handler when it does not fire. *)
Definition bundleHandlerOutput (numEntries : nat)
    (res : nat * list (nat * BundledRadiance) * list OcclEvent)
    : bool * list (option BundledRadiance) :=
  let '(numRadiancesFilled, w, _) := res in
  (Nat.leb numRadiancesFilled numEntries,
   map (readResult w) (seq 0 numRadiancesFilled)).


(** A resolver's output fills the slots [0 .. n-1] of [results], each once,
    and [n] stays within the [numEntries] slots allocated. *)
Definition fillsWithin (numEntries : nat)
    (res : nat * list (nat * BundledRadiance) * list OcclEvent) : Prop :=
  let '(n, w, _) := res in n <= numEntries /\ map fst w = seq 0 n.

(** ** [rayBundleHandler] *)

(** The ray states, as the handler sees them after the intersection and
    volume passes (lines 322-357): geometry / primitive ids of the hit
    ([mGeomID = -1] for a miss), the path vertex, the subpixel and the
    volume results. *)
Record RayState := mkRayState {
  rsGeomID : Z;
  rsPrimID : Z;
  rsDepth : nat;
  rsLobeType : nat;
  rsPathPixelWeight : Q;
  rsPathThroughput : Color;
  rsLpeStateId : Z;
  rsLpeStateIdLight : Z;
  rsPixel : nat;
  rsDeepDataHandle : Handle;
  rsCryptomatteDataHandle : Handle;
  rsVolHit : bool;
  rsVolRad : Color;
  rsVolTr : Color;
  rsVolTh : Color;
  rsVolTalpha : Color;
  rsVolumeSurfaceT : Q
}.

(** [scene_rdl2::math::sMaxValue] (FLT_MAX). *)
Definition sMaxValue : Q := inject_Z (340282346638528859811704183484516925440%Z).

(** A shading material: its bundled id (the sort key) and its shade queue. *)
Record Material := mkMaterial { getMaterialId : nat; getShadeQueue : nat }.

Record SortedEntry := mkSortedEntry {
  mSortKey : nat;
  mRsIdx : nat;
  mMaterial : option Material
}.

Record RayFrameState := mkRayFrameState {
  aovSchemaEmpty : bool;
  (* getLightSampleCount() * getLightCount() *)
  totalLightSamples : nat
}.

(** Calls [rayBundleHandler] makes (acquisitions of deep / cryptomatte
    references, statistics and heat maps are not recorded). *)
Inductive RayEvent :=
| EvVisibilityAttempts (pixel : nat) (totalLightSamples : nat)
| EvAddRadianceQueueEntries (rads : list BundledRadiance)
| EvBackgroundExtraAovs (rsIdx : nat)
| EvVolumeOnlyAovs (rsIdx : nat)
| EvLightEventTransition (lpeStateId : Z) (light : Light)
| EvLightAovsBundled (radiance : Color) (lpeStateId : Z) (pixel : nat)
| EvFreeRayStates (rsIdxs : list nat)
| EvShadeQueueAddEntries (material : option Material) (entries : list (nat * Z)).

(** Recognisers of the light-path-expression calls of a miss. *)
Definition isLightEventTransition (e : RayEvent) : bool :=
  match e with EvLightEventTransition _ _ => true | _ => false end.
Definition isLightAovsBundled (e : RayEvent) : bool :=
  match e with EvLightAovsBundled _ _ _ => true | _ => false end.

(** [c * s] for a colour and a float. *)
Definition cscaleR (c : Color) (s : Q) : Color :=
  mkColor (cr c * s) (cg c * s) (cb c * s)%Q.

Definition RAY_HANDLER_STD_SORT_CUTOFF : nat := 200.

(** Modelled from the spec: [scene_rdl2::util::smartSort32] (a library
    outside the sources).  "entries are sorted ascending by key using a
    bucket/radix-style sort bounded by the maximum observed key when the
    batch size is below a fixed threshold, and a standard comparison sort
    otherwise". *)
Definition bucketSort (maxKey : nat) (l : list SortedEntry) : list SortedEntry :=
  flat_map (fun k => filter (fun e => Nat.eqb (mSortKey e) k) l) (seq 0 (S maxKey)).

Fixpoint insertByKey (e : SortedEntry) (l : list SortedEntry) : list SortedEntry :=
  match l with
  | [] => [e]
  | x :: t => if Nat.leb (mSortKey e) (mSortKey x) then e :: x :: t
              else x :: insertByKey e t
  end.

Definition comparisonSort (l : list SortedEntry) : list SortedEntry :=
  fold_right insertByKey [] l.

Definition smartSort32 (numEntries : nat) (entries : list SortedEntry) (maxKey : nat)
    : list SortedEntry :=
  if Nat.ltb numEntries RAY_HANDLER_STD_SORT_CUTOFF then bucketSort maxKey entries
  else comparisonSort entries.

(** [((geomID & 0xfff) << 20) | (primID & 0xfffff)] *)
Definition shadeSortKey (rs : RayState) : Z :=
  Z.lor (Z.shiftl (Z.land (rsGeomID rs) 4095) 20) (Z.land (rsPrimID rs) 1048575).

Section RayBundle.

(** Collaborators: the shading material of a hit (None: no material
    assigned), the ray-type material substitution (indexed by lobe type),
    the visible-light search of a primary ray (the light chosen and the
    number of lights hit), the light's radiance and [reduceTransparency].
    The light-event transition of the light-path expression is recorded as
    a call ([EvLightEventTransition]); its result is only ever stored in
    the inner [lpeStateId] of line 640. *)
Variable intersectionMaterial : RayState -> option Material.
Variable raySwitch : nat -> Material -> Material.
Variable intersectVisibleLight : RayState -> option (Light * nat).
Variable lightEval : Light -> RayState -> Color.
Variable reduceTransparency : Color -> Q.

(** Lines 387-472: one pass over the batch building the sort entries,
    the running [maxSortKey], the ray states to free and the calls. *)
Fixpoint buildSortedEntries (fs : RayFrameState) (pool : nat -> RayState)
    (rayStates : list nat)
    (acc : list SortedEntry * nat * list nat * list RayEvent)
    : list SortedEntry * nat * list nat * list RayEvent :=
  match rayStates with
  | [] => acc
  | i :: rest =>
      let '(sortedEntries, maxSortKey, rayStatesToFree, ev) := acc in
      let rs := pool i in
      let acc' :=
        if Z.eqb (rsGeomID rs) (-1) then
          (* We didn't hit anything. *)
          (sortedEntries ++ [mkSortedEntry 0 i None], maxSortKey, rayStatesToFree,
           ev ++ (if Nat.eqb (rsDepth rs) 0 && negb (aovSchemaEmpty fs)
                  then [EvVisibilityAttempts (rsPixel rs) (totalLightSamples fs)]
                  else []))
        else
          match intersectionMaterial rs with
          | Some material =>
              let material := raySwitch (rsLobeType rs) material in
              (sortedEntries ++ [mkSortedEntry (getMaterialId material) i (Some material)],
               Nat.max maxSortKey (getMaterialId material), rayStatesToFree, ev)
          | None =>
              (* No material: free the ray state, emit the volume radiance. *)
              (sortedEntries, maxSortKey, rayStatesToFree ++ [i],
               ev ++ (if rsVolHit rs then
                        let alpha :=
                          if Nat.eqb (rsDepth rs) 0 then
                            (rsPathPixelWeight rs * (1 - reduceTransparency (rsVolTalpha rs)))%Q
                          else 0%Q in
                        [EvAddRadianceQueueEntries
                           [mkBundledRadiance (rsVolRad rs) alpha (rsPathPixelWeight rs)
                              (rsPixel rs) (rsDeepDataHandle rs)
                              (rsCryptomatteDataHandle rs)]]
                      else []))
          end in
      buildSortedEntries fs pool rest acc'
  end.

(** Lines 513-662: retiring one miss.  The code declares a second
    [hitLight] inside the depth-0 block (line 532) and a second
    [lpeStateId] inside case 1 (line 640); the outer ones, read by the LPE
    code, keep their initial values [nullptr] and [-1]. *)
Definition missEntry (fs : RayFrameState) (rsIdx : nat) (rs : RayState)
    : BundledRadiance * list RayEvent :=
  let hitLight : option Light := None in
  let '(radiance, alpha) :=
    if Nat.eqb (rsDepth rs) 0 then
      match intersectVisibleLight rs with
      | Some (hitLight, numHits) =>
          let radiance := cscaleR (cmul (rsPathThroughput rs) (lightEval hitLight rs))
                                  (inject_Z (Z.of_nat numHits)) in
          let radiance := if rsVolHit rs
                          then cmul radiance (cmul (rsVolTr rs) (rsVolTh rs))
                          else radiance in
          let alpha :=
            if getIsOpaqueInAlpha hitLight then rsPathPixelWeight rs
            else if rsVolHit rs then
              (rsPathPixelWeight rs * (1 - reduceTransparency (rsVolTalpha rs)))%Q
            else 0%Q in
          (radiance, alpha)
      | None =>
          (sBlack,
           if rsVolHit rs then
             (rsPathPixelWeight rs * (1 - reduceTransparency (rsVolTalpha rs)))%Q
           else 0%Q)
      end
    else (sBlack, 0%Q) in
  let radiance := cadd radiance (rsVolRad rs) in
  let rad := mkBundledRadiance radiance alpha (rsPathPixelWeight rs) (rsPixel rs)
                               (rsDeepDataHandle rs) (rsCryptomatteDataHandle rs) in
  let aovEvents :=
    if aovSchemaEmpty fs then [] else
      EvBackgroundExtraAovs rsIdx ::
      (if Nat.eqb (rsDepth rs) 0 && rsVolHit rs && Qlt_bool (rsVolumeSurfaceT rs) sMaxValue
       then [EvVolumeOnlyAovs rsIdx] else []) ++
      (let lpeStateId : Z := (-1)%Z in
       let '(lpeStateId, transitions) :=
         if Nat.eqb (rsDepth rs) 0 then
           match hitLight with
           | Some l =>
               (* case 1 *)
               let lpeStateId' := rsLpeStateId rs in
               if Z.leb 0 lpeStateId'
               then (lpeStateId, [EvLightEventTransition lpeStateId' l])
               else (lpeStateId, [])
           | None => (lpeStateId, [])
           end
         else (rsLpeStateIdLight rs, []) (* case 2 *) in
       transitions ++
       (if Z.leb 0 lpeStateId
        then [EvLightAovsBundled radiance lpeStateId (rsPixel rs)] else []))
  in (rad, aovEvents).

(** [while (spanEnd != endEntry && spanEnd->mSortKey == key) ++spanEnd;]
    over the arena array [mem]; [None]: the walk did not stop within
    [fuel] steps (it has left the array). *)
Fixpoint spanEndScan (fuel : nat) (mem : nat -> SortedEntry) (endEntry p key : nat)
    : option nat :=
  match fuel with
  | 0 => None
  | S f =>
      if Nat.eqb p endEntry then Some p
      else if Nat.eqb (mSortKey (mem p)) key then spanEndScan f mem endEntry (S p) key
      else Some p
  end.

(** Lines 682-718: route the runs [currEntry, endEntry) to their shade
    queues; [false]: the loop did not reach [endEntry] within [fuel]. *)
Fixpoint dispatchLoop (fuel : nat) (pool : nat -> RayState) (mem : nat -> SortedEntry)
    (endEntry currEntry : nat) : list RayEvent * bool :=
  match fuel with
  | 0 => ([], false)
  | S f =>
      if Nat.eqb currEntry endEntry then ([], true) else
      let currBundledMatId := mSortKey (mem currEntry) in
      match spanEndScan (S (S f)) mem endEntry (S currEntry) currBundledMatId with
      | None => ([], false)
      | Some spanEnd =>
          let shadeEntries :=
            map (fun j => let rsIdx := mRsIdx (mem j) in (rsIdx, shadeSortKey (pool rsIdx)))
                (seq currEntry (spanEnd - currEntry)) in
          let '(ev, ok) := dispatchLoop f pool mem endEntry spanEnd in
          (EvShadeQueueAddEntries (mMaterial (mem currEntry)) shadeEntries :: ev, ok)
      end
  end.

(** The handler on a batch ([rayStates]: indices into the ray-state pool
    [pool]); [arenaMem] is what the arena holds where [sortedEntries] is
    allocated before the handler writes it.  Returns the calls and whether
    the handler ran to its end.  The CHECK_CANCELLATION early returns
    (lines 359, 667 and 712) are not modelled: this is the handler when
    none of them fires. *)
Definition rayBundleHandler (fs : RayFrameState) (arenaMem : nat -> SortedEntry)
    (pool : nat -> RayState) (rayStates : list nat) : list RayEvent * bool :=
  let '(entries, maxSortKey, rayStatesToFree, ev1) :=
    buildSortedEntries fs pool rayStates ([], 0, [], []) in
  let numSortedEntries := length entries in
  let sortedEntries := smartSort32 numSortedEntries entries maxSortKey in
  let mem (j : nat) := nth j sortedEntries (arenaMem j) in
  let fuel := S (length rayStates) in
  let missRun :=
    if Nat.eqb (mSortKey (mem 0)) 0 then
      match spanEndScan fuel mem numSortedEntries 1 0 with
      | None => None
      | Some spanEnd =>
          let numMisses := spanEnd in
          let retired := map (fun j => let rsIdx := mRsIdx (mem j) in
                                       (rsIdx, missEntry fs rsIdx (pool rsIdx)))
                             (seq 0 numMisses) in
          Some (numMisses,
                flat_map (fun p => snd (snd p)) retired
                  ++ [EvAddRadianceQueueEntries (map (fun p => fst (snd p)) retired)],
                map fst retired)
      end
    else Some (0, [], []) in
  match missRun with
  | None => (ev1, false)
  | Some (numMisses, ev2, missesToFree) =>
      let '(ev3, ok) := dispatchLoop fuel pool mem numSortedEntries numMisses in
      (ev1 ++ ev2 ++ [EvFreeRayStates (rayStatesToFree ++ missesToFree)] ++ ev3, ok)
  end.

End RayBundle.

(** ** What the handlers' calls carry

    Projections of a trace of [rayBundleHandler]: the ray states freed,
    the shade-queue calls (material, entries), the ray states forwarded,
    the radiances queued and the visibility attempts recorded. *)
Definition freedStates (ev : list RayEvent) : list nat :=
  flat_map (fun e => match e with EvFreeRayStates l => l | _ => [] end) ev.
Definition shadeCalls (ev : list RayEvent) : list (option Material * list (nat * Z)) :=
  flat_map (fun e => match e with EvShadeQueueAddEntries m l => [(m, l)] | _ => [] end) ev.
Definition forwardedStates (ev : list RayEvent) : list nat :=
  flat_map (fun c => map fst (snd c)) (shadeCalls ev).
Definition queuedRadiances (ev : list RayEvent) : list BundledRadiance :=
  flat_map (fun e => match e with EvAddRadianceQueueEntries l => l | _ => [] end) ev.
Definition visibilityAttempts (ev : list RayEvent) : list (nat * nat) :=
  flat_map (fun e => match e with EvVisibilityAttempts p n => [(p, n)] | _ => [] end) ev.

(** Recogniser of the bulk-free and shade-queue calls. *)
Definition isFreeOrShade (e : RayEvent) : bool :=
  match e with EvFreeRayStates _ => true | EvShadeQueueAddEntries _ _ => true | _ => false end.

(** A shade-queue call made for the run that starts at slot [j] of the
    sorted array [mem] of [N] entries: it carries the material of slot [j]
    and is non-empty, and each of its entries is the ray state of a slot
    [j' >= j] with the key of slot [j], paired with that ray's sort key. *)
Definition shadeCallFrom (pool : nat -> RayState) (mem : nat -> SortedEntry) (N : nat)
    (j : nat) (c : option Material * list (nat * Z)) : Prop :=
  fst c = mMaterial (mem j) /\ snd c <> [] /\
  Forall (fun x => exists j', j <= j' < N /\ mSortKey (mem j') = mSortKey (mem j) /\
                     x = (mRsIdx (mem j'), shadeSortKey (pool (mRsIdx (mem j'))))) (snd c).

(** The rays an occlusion resolver submits to the CPU accelerator. *)
Definition occlusionTests (ev : list OcclEvent) : list BundledOcclRay :=
  flat_map (fun e => match e with EvOccluded r => [r] | _ => [] end) ev.

(** ** Sample inputs *)

(** A light with a clear radius of 1 and a falloff band of 2. *)
Definition sampleLight : Light := mkLight 1 1 2 false.
(** A light without clear-radius falloff. *)
Definition plainLight : Light := mkLight 2 0 0 false.

(** Side-data list 1 holds [sampleLight], any other [plainLight]. *)
Definition sampleListLight (h : Handle) : Light :=
  if Nat.eqb h 1 then sampleLight else plainLight.

(** A tolerance comparison in the manner of scene_rdl2's [isEqual]. *)
Definition sampleIsEqual (a b : Q) : bool := Qle_bool (Qabs (a - b)) (1 # 1000000).

(** Volumetric transmittance one half on every ray; its reduction the
    red channel. *)
Definition sampleTransmittance (_ : BundledOcclRay) : Color :=
  mkColor (1 # 2) (1 # 2) (1 # 2).
Definition sampleReduce (c : Color) : Q := cr c.

Definition shadowingOn : FrameState := mkFrameState true false.
Definition shadowingOff : FrameState := mkFrameState false false.

(** An occlusion ray of the given kind with side data [dataHandle], deep
    data handle 5 and cryptomatte handle 7. *)
Definition sampleOcclRay (id : nat) (kind : OcclTestType) (maxT : Q)
    (dataHandle : Handle) : BundledOcclRay :=
  mkOcclRay id kind maxT (mkColor 1 2 3) 4 dataHandle 5 7.

(** A ray state of the given geometry and primitive ids, depth and
    volume flag: path pixel weight 1, throughput (1,1,1), lpeStateId 3,
    lpeStateIdLight -1, no volume radiance, volume alpha transmittance 0. *)
Definition sampleRayState (geomID primID : Z) (depth : nat) (volHit : bool) : RayState :=
  mkRayState geomID primID depth 0 1 sWhite 3 (-1) 0 0 0 volHit sBlack sWhite sWhite
             sBlack sMaxValue.

Definition aovFrame : RayFrameState := mkRayFrameState false 4.

(** The camera sees one light, opaque in alpha. *)
Definition sampleVisibleLight (_ : RayState) : option (Light * nat) :=
  Some (mkLight 3 0 0 true, 1%nat).
Definition noVisibleLight (_ : RayState) : option (Light * nat) := None.
Definition sampleLightEval (_ : Light) (_ : RayState) : Color := sWhite.

(** Materials: the hit primitive id, at least 1, is the material id. *)
Definition materialOfPrim (rs : RayState) : option Material :=
  let k := Nat.max 1 (Z.to_nat (rsPrimID rs)) in Some (mkMaterial k k).
Definition noMaterial (_ : RayState) : option Material := None.

(** A batch of seven rays with sort keys 0, 0, 3, 1, 0, 3, 1. *)
Definition keyPool (i : nat) : RayState :=
  let k := nth i [0; 0; 3; 1; 0; 3; 1]%Z 0%Z in
  if Z.eqb k 0 then sampleRayState (-1) 0 0 false else sampleRayState 1 k 1 false.

(** A pool whose ray 4 hits geometry (of null material), over an arena
    whose first slot still holds a miss entry for ray state 9. *)
Definition hitPool (_ : nat) : RayState := sampleRayState 1 0 1 false.
Definition staleArena (j : nat) : SortedEntry :=
  if Nat.eqb j 0 then mkSortedEntry 0 9 None else mkSortedEntry 7 8 None.

(** * Facts *)

(** ** [std::partition] partitions *)

Section StdPartitionFacts.
Context {A : Type} (pred : A -> bool).

Lemma set_nth_length (l : list A) i x : length (set_nth l i x) = length l.
Proof. revert i; induction l as [|h t IH]; intros [|i]; simpl; auto. Qed.

Lemma nth_error_set_nth (l : list A) i x k :
  nth_error (set_nth l i x) k =
  if Nat.eqb k i then (if Nat.ltb i (length l) then Some x else None)
  else nth_error l k.
Proof.
  revert i k; induction l as [|h t IH]; intros i k.
  - simpl. destruct (Nat.eqb k i), k; reflexivity.
  - destruct i as [|i], k as [|k]; simpl; try reflexivity.
    rewrite IH. reflexivity.
Qed.

Lemma set_nth_middle (l1 l2 : list A) y x :
  set_nth (l1 ++ y :: l2) (length l1) x = l1 ++ x :: l2.
Proof. induction l1 as [|h t IH]; simpl; [reflexivity | now rewrite IH]. Qed.

Lemma nth_error_iter_swap (l : list A) i j k :
  i < j < length l ->
  nth_error (iter_swap l i j) k =
  if Nat.eqb k i then nth_error l j
  else if Nat.eqb k j then nth_error l i else nth_error l k.
Proof.
  intros Hij. unfold iter_swap.
  destruct (nth_error l i) as [xi|] eqn:Ei; [|apply nth_error_None in Ei; lia].
  destruct (nth_error l j) as [xj|] eqn:Ej; [|apply nth_error_None in Ej; lia].
  rewrite !nth_error_set_nth, set_nth_length.
  assert (Hi : Nat.ltb i (length l) = true) by (apply Nat.ltb_lt; lia).
  assert (Hj : Nat.ltb j (length l) = true) by (apply Nat.ltb_lt; lia).
  rewrite Hi, Hj.
  destruct (Nat.eqb_spec k j), (Nat.eqb_spec k i); subst; try lia; auto.
Qed.

Lemma iter_swap_length (l : list A) i j : length (iter_swap l i j) = length l.
Proof.
  unfold iter_swap.
  destruct (nth_error l i), (nth_error l j); rewrite ?set_nth_length; reflexivity.
Qed.

Lemma iter_swap_perm (l : list A) i j : i < j -> Permutation l (iter_swap l i j).
Proof.
  intros Hij. unfold iter_swap.
  destruct (nth_error l i) as [xi|] eqn:Ei; [|reflexivity].
  destruct (nth_error l j) as [xj|] eqn:Ej; [|reflexivity].
  destruct (nth_error_split l i Ei) as (l1 & r & -> & Hl1).
  assert (Er : nth_error r (j - S i) = Some xj).
  { rewrite nth_error_app2 in Ej by lia. rewrite Hl1 in Ej.
    replace (j - i) with (S (j - S i)) in Ej by lia. exact Ej. }
  destruct (nth_error_split r (j - S i) Er) as (l2 & l3 & -> & Hl2).
  subst i. rewrite set_nth_middle.
  replace j with (length (l1 ++ xj :: l2)) by (rewrite length_app; simpl; lia).
  assert (E : l1 ++ xj :: l2 ++ xj :: l3 = (l1 ++ xj :: l2) ++ xj :: l3)
    by (rewrite <- app_assoc; reflexivity).
  rewrite E, set_nth_middle, <- app_assoc.
  apply Permutation_app_head. simpl.
  rewrite <- !Permutation_middle. apply perm_swap.
Qed.

Lemma advance_first_spec fuel (a : list A) f l :
  l <= length a -> f <= l -> l - f <= fuel ->
  f <= advance_first pred fuel a f l <= l /\
  (forall i x, f <= i < advance_first pred fuel a f l ->
               nth_error a i = Some x -> pred x = true) /\
  (advance_first pred fuel a f l = l \/
   exists x, nth_error a (advance_first pred fuel a f l) = Some x /\ pred x = false).
Proof.
  revert f; induction fuel as [|fuel IH]; intros f Hl Hf Hfuel; simpl.
  - assert (f = l) by lia. subst. repeat split; try lia; try (intros; lia); auto.
  - destruct (Nat.eqb_spec f l) as [->|Hne].
    + repeat split; try lia; try (intros; lia); auto.
    + destruct (nth_error a f) as [x|] eqn:Ex; [|apply nth_error_None in Ex; lia].
      destruct (pred x) eqn:Px.
      * destruct (IH (S f)) as (H1 & H2 & H3); try lia.
        repeat split; try lia; auto.
        intros i y Hi Hy. destruct (Nat.eq_dec i f) as [->|]; [congruence|].
        apply (H2 i y); [lia | exact Hy].
      * repeat split; try lia. right. eauto.
Qed.

Lemma retreat_last_spec fuel (a : list A) f l :
  l < length a -> f <= l -> l - f <= fuel ->
  f <= retreat_last pred fuel a f l <= l /\
  (forall i x, retreat_last pred fuel a f l < i <= l ->
               nth_error a i = Some x -> pred x = false) /\
  (retreat_last pred fuel a f l = f \/
   exists x, nth_error a (retreat_last pred fuel a f l) = Some x /\ pred x = true).
Proof.
  revert l; induction fuel as [|fuel IH]; intros l Hl Hf Hfuel; simpl.
  - assert (f = l) by lia. subst. repeat split; try lia; try (intros; lia); auto.
  - destruct (Nat.eqb_spec f l) as [->|Hne].
    + repeat split; try lia; try (intros; lia); auto.
    + destruct (nth_error a l) as [x|] eqn:Ex; [|apply nth_error_None in Ex; lia].
      destruct (pred x) eqn:Px.
      * repeat split; try lia. right. eauto.
      * destruct (IH (Nat.pred l)) as (H1 & H2 & H3); try lia.
        repeat split; try lia; auto.
        intros i y Hi Hy. destruct (Nat.eq_dec i l) as [->|]; [congruence|].
        apply (H2 i y); [lia | exact Hy].
Qed.

Lemma partition_loop_spec fuel (a : list A) f l :
  l <= length a -> f <= l -> l - f < fuel ->
  (forall i x, i < f -> nth_error a i = Some x -> pred x = true) ->
  (forall i x, l <= i -> nth_error a i = Some x -> pred x = false) ->
  Permutation a (fst (partition_loop pred fuel a f l)) /\
  snd (partition_loop pred fuel a f l) <= length a /\
  (forall i x, nth_error (fst (partition_loop pred fuel a f l)) i = Some x ->
               (pred x = true <-> i < snd (partition_loop pred fuel a f l))).
Proof.
  revert a f l; induction fuel as [|fuel IH]; intros a f l Hl Hf Hfuel Hlow Hhigh;
    [lia|].
  cbn [partition_loop].
  destruct (advance_first_spec (length a) a f l) as (A1 & A2 & A3); try lia.
  set (r := advance_first pred (length a) a f l) in *.
  destruct (Nat.eqb_spec r l) as [Erl|Nrl].
  - simpl. split; [auto|split; [lia|]].
    intros i x Hx. destruct (Nat.lt_ge_cases i r) as [Hi|Hi].
    + split; [intros; lia|intros _].
      destruct (Nat.lt_ge_cases i f); [eapply Hlow; eauto | eapply A2; eauto; lia].
    + split; [|intros; lia]. intros Hp. rewrite (Hhigh i x) in Hp; [discriminate|lia|auto].
  - destruct A3 as [|(xr & Exr & Pxr)]; [contradiction|].
    assert (Hrl : r < l) by lia.
    destruct (retreat_last_spec (length a) a r (Nat.pred l)) as (R1 & R2 & R3); try lia.
    set (r' := retreat_last pred (length a) a r (Nat.pred l)) in *.
    destruct (Nat.eqb_spec r r') as [Err'|Nrr'].
    + simpl. split; [auto|split; [lia|]].
      intros i x Hx. destruct (Nat.lt_ge_cases i r) as [Hi|Hi].
      * split; [intros; lia|intros _].
        destruct (Nat.lt_ge_cases i f); [eapply Hlow; eauto | eapply A2; eauto; lia].
      * split; [|intros; lia]. intros Hp.
        destruct (Nat.eq_dec i r) as [->|Hir]; [congruence|].
        destruct (Nat.lt_ge_cases i l).
        -- rewrite (R2 i x) in Hp; [discriminate|lia|auto].
        -- rewrite (Hhigh i x) in Hp; [discriminate|lia|auto].
    + destruct R3 as [|(xl & Exl & Pxl)]; [congruence|].
      assert (Hrr' : r < r') by lia.
      assert (Hr'len : r' < length a) by lia.
      destruct (IH (iter_swap a r r') (S r) r') as (P1 & P2 & P3).
      * rewrite iter_swap_length. lia.
      * lia.
      * lia.
      * intros i x Hi Hx. rewrite nth_error_iter_swap in Hx by lia.
        destruct (Nat.eqb_spec i r); [congruence|].
        destruct (Nat.eqb_spec i r'); [lia|].
        destruct (Nat.lt_ge_cases i f); [eapply Hlow; eauto | eapply A2; eauto; lia].
      * intros i x Hi Hx. rewrite nth_error_iter_swap in Hx by lia.
        destruct (Nat.eqb_spec i r); [lia|].
        destruct (Nat.eqb_spec i r'); [congruence|].
        destruct (Nat.lt_ge_cases i l); [eapply R2; eauto; lia | eapply Hhigh; eauto].
      * rewrite iter_swap_length in P2.
        split; [|split; [lia|exact P3]].
        eapply perm_trans; [|exact P1]. apply iter_swap_perm; lia.
Qed.

Lemma std_partition_spec (a : list A) :
  Permutation a (fst (std_partition pred a)) /\
  snd (std_partition pred a) <= length a /\
  (forall i x, nth_error (fst (std_partition pred a)) i = Some x ->
               (pred x = true <-> i < snd (std_partition pred a))).
Proof.
  unfold std_partition. apply partition_loop_spec; try lia.
  intros i x Hi Hx. apply nth_error_None in Hi. congruence.
Qed.

End StdPartitionFacts.

(** ** Occlusion resolvers *)

Ltac case_ifs :=
  repeat match goal with
         | |- context [if ?c then _ else _] => destruct c
         end.

(** Case analysis that first settles the comparisons of a handle with
    itself. *)
Ltac case_ifs_refl :=
  repeat (first [ progress simpl
                | rewrite Nat.eqb_refl
                | match goal with
                  | H : ?c = _ |- context [if ?c then _ else _] => rewrite H
                  end
                | match goal with
                  | |- context [if ?c then _ else _] => destruct c eqn:?
                  end ]).

Lemma indexFrom_fst {X} k (l : list X) : map fst (indexFrom k l) = seq k (length l).
Proof.
  unfold indexFrom. revert k; induction l as [|x t IH]; intros k; simpl; [reflexivity|].
  f_equal. apply IH.
Qed.

Lemma shiftWrites_fst k w : map fst (shiftWrites k w) = map (Nat.add k) (map fst w).
Proof. unfold shiftWrites. rewrite !map_map. reflexivity. Qed.

Lemma map_add_seq k s n : map (Nat.add k) (seq s n) = seq (k + s) n.
Proof.
  revert s; induction n as [|n IH]; intros s; simpl; [reflexivity|].
  rewrite IH. replace (k + S s) with (S (k + s)) by lia. reflexivity.
Qed.

Section OcclusionFacts.
Variable getTransmittance : BundledOcclRay -> Color.
Variable reduceTransparency : Color -> Q.
Variable listLight : Handle -> Light.
Variable accelOccluded : BundledOcclRay -> bool.
Variable accumulateRayPresence : Light -> BundledOcclRay -> Q.
Variable isEqual : Q -> Q -> bool.

Local Abbreviation cpuBody :=
  (areSingleRaysOccluded_body getTransmittance reduceTransparency listLight).
Local Abbreviation cpuLoop :=
  (areSingleRaysOccluded_loop getTransmittance reduceTransparency listLight accelOccluded).
Local Abbreviation gpuBody :=
  (computeXPUOcclusionQueriesOnGPU_body getTransmittance reduceTransparency listLight).
Local Abbreviation gpuLoop :=
  (computeXPUOcclusionQueriesOnGPU_loop getTransmittance reduceTransparency listLight).
Local Abbreviation presenceLoop :=
  (computePresenceShadowsQueriesBundled_loop getTransmittance reduceTransparency
     listLight accumulateRayPresence isEqual).
Local Abbreviation computeOcclusion :=
  (computeOcclusionQueriesBundled getTransmittance reduceTransparency listLight accelOccluded).
Local Abbreviation computePresence :=
  (computePresenceShadowsQueriesBundled getTransmittance reduceTransparency listLight
     accumulateRayPresence isEqual).
Local Abbreviation computeGPU :=
  (computeXPUOcclusionQueriesOnGPU getTransmittance reduceTransparency listLight).
Local Abbreviation presenceBody :=
  (computePresenceShadowsQueriesBundled_body getTransmittance reduceTransparency
     listLight accumulateRayPresence isEqual).

Lemma cpuBody_at_most_one fs b r : length (fst (cpuBody fs b r)) <= 1.
Proof. unfold areSingleRaysOccluded_body. case_ifs; simpl; lia. Qed.

Lemma gpuBody_at_most_one fs occ i r : length (fst (gpuBody fs occ i r)) <= 1.
Proof. unfold computeXPUOcclusionQueriesOnGPU_body. case_ifs; simpl; lia. Qed.

Lemma cpuLoop_fills fs entries k :
  k <= fst (fst (cpuLoop fs k entries)) <= k + length entries /\
  map fst (snd (fst (cpuLoop fs k entries))) = seq k (fst (fst (cpuLoop fs k entries)) - k).
Proof.
  revert k; induction entries as [|r rest IH]; intros k; simpl.
  - split; [lia|]. now rewrite Nat.sub_diag.
  - pose proof (cpuBody_at_most_one fs (accelOccluded r) r) as Hb.
    destruct (cpuBody fs (accelOccluded r) r) as [filled ev]. simpl in Hb.
    specialize (IH (k + length filled)).
    destruct (cpuLoop fs (k + length filled) rest) as [[n w] e]. simpl in *.
    destruct IH as [IH1 IH2]. split; [lia|].
    rewrite map_app, indexFrom_fst, IH2, <- seq_app. f_equal. lia.
Qed.

Lemma gpuLoop_fills fs occ rays i k :
  k <= fst (fst (gpuLoop fs occ i k rays)) <= k + length rays /\
  map fst (snd (fst (gpuLoop fs occ i k rays))) =
  seq k (fst (fst (gpuLoop fs occ i k rays)) - k).
Proof.
  revert i k; induction rays as [|r rest IH]; intros i k; simpl.
  - split; [lia|]. now rewrite Nat.sub_diag.
  - pose proof (gpuBody_at_most_one fs occ i r) as Hb.
    destruct (gpuBody fs occ i r) as [filled ev]. simpl in Hb.
    specialize (IH (S i) (k + length filled)).
    destruct (gpuLoop fs occ (S i) (k + length filled) rest) as [[n w] e]. simpl in *.
    destruct IH as [IH1 IH2]. split; [lia|].
    rewrite map_app, indexFrom_fst, IH2, <- seq_app. f_equal. lia.
Qed.

Lemma forceLoop_fills entries i :
  map fst (fst (forceSingleRaysUnoccluded_loop getTransmittance i entries)) =
  seq i (length entries).
Proof.
  revert i; induction entries as [|r rest IH]; intros i; simpl; [reflexivity|].
  destruct (forceSingleRaysUnoccluded_body getTransmittance r).
  specialize (IH (S i)).
  destruct (forceSingleRaysUnoccluded_loop getTransmittance (S i) rest). simpl in *.
  now rewrite IH.
Qed.

Lemma presenceLoop_fills fs entries k :
  fst (fst (presenceLoop fs k entries)) = k + length entries /\
  map fst (snd (fst (presenceLoop fs k entries))) = seq k (length entries).
Proof.
  revert k; induction entries as [|r rest IH]; intros k; simpl; [split; [lia|reflexivity]|].
  destruct (computePresenceShadowsQueriesBundled_body getTransmittance reduceTransparency
              listLight accumulateRayPresence isEqual fs r).
  specialize (IH (S k)).
  destruct (presenceLoop fs (S k) rest) as [[n w] e]. simpl in *.
  destruct IH as [-> ->]. split; [lia|reflexivity].
Qed.

Lemma computeOcclusion_fills fs entries :
  fillsWithin (length entries) (snd (computeOcclusion fs entries)).
Proof.
  unfold computeOcclusionQueriesBundled.
  destruct (std_partition_spec isStandard entries) as (P1 & P2 & _).
  destruct (std_partition isStandard entries) as [a m]. simpl in *.
  assert (La : length a = length entries) by (symmetry; apply Permutation_length, P1).
  assert (Hstd : fst (fst (if Nat.eqb m 0 then (0, [], [])
                            else areSingleRaysOccluded getTransmittance reduceTransparency
                                   listLight accelOccluded fs (firstn m a))) <= m /\
                 map fst (snd (fst (if Nat.eqb m 0 then (0, [], [])
                            else areSingleRaysOccluded getTransmittance reduceTransparency
                                   listLight accelOccluded fs (firstn m a)))) =
                 seq 0 (fst (fst (if Nat.eqb m 0 then (0, [], [])
                            else areSingleRaysOccluded getTransmittance reduceTransparency
                                   listLight accelOccluded fs (firstn m a))))).
  { destruct (Nat.eqb m 0); [simpl; split; [lia|reflexivity]|].
    unfold areSingleRaysOccluded.
    destruct (cpuLoop_fills fs (firstn m a) 0) as [H1 H2].
    rewrite length_firstn in H1. rewrite Nat.sub_0_r in H2. split; [lia|exact H2]. }
  destruct (if Nat.eqb m 0 then (0, [], [])
            else areSingleRaysOccluded getTransmittance reduceTransparency
                   listLight accelOccluded fs (firstn m a)) as [[t w1] e1].
  simpl in Hstd. destruct Hstd as [Ht Hw1].
  destruct (Nat.eqb_spec (length a - m) 0) as [Hz|Hnz].
  - simpl. rewrite app_nil_r. split; [lia|exact Hw1].
  - unfold forceSingleRaysUnoccluded.
    pose proof (forceLoop_fills (skipn m a) 0) as Hf.
    destruct (forceSingleRaysUnoccluded_loop getTransmittance 0 (skipn m a)) as [w e].
    simpl in *. rewrite length_skipn. split; [lia|].
    rewrite map_app, shiftWrites_fst, Hf, Hw1, map_add_seq, Nat.add_0_r, length_skipn.
    rewrite <- seq_app. reflexivity.
Qed.

Lemma computePresence_fills fs entries :
  fillsWithin (length entries) (computePresence fs entries).
Proof.
  unfold computePresenceShadowsQueriesBundled.
  destruct entries as [|r rest] eqn:E; [simpl; split; [lia|reflexivity]|].
  rewrite <- E. pose proof (presenceLoop_fills fs entries 0) as [H1 H2].
  destruct (presenceLoop fs 0 entries) as [[n w] e]. simpl in *. split; [lia|].
  rewrite H2, H1. reflexivity.
Qed.

Lemma computeGPU_fills fs occ rays :
  fillsWithin (length rays) (computeGPU fs occ rays).
Proof.
  unfold computeXPUOcclusionQueriesOnGPU.
  destruct (gpuLoop_fills fs occ rays 0 0) as [H1 H2].
  destruct (gpuLoop fs occ 0 0 rays) as [[n w] e]. simpl in *.
  rewrite Nat.sub_0_r in H2. split; [lia|exact H2].
Qed.

Lemma fillsWithin_assert numEntries res :
  fillsWithin numEntries res -> fst (bundleHandlerOutput numEntries res) = true.
Proof.
  destruct res as [[n w] e]. simpl. intros [H _]. apply Nat.leb_le, H.
Qed.

(** C10: each of the three resolvers fills at most one [BundledRadiance]
    per input ray: the count it returns is at most the number of entries,
    the slots it writes are exactly [0 .. count-1] of the [results] array
    allocated with [numEntries] slots (each written once, none past the
    end), and the handler's assertion [numRadiancesFilled <= numEntries]
    holds. *)
Theorem resolvers_fill_within_results fs isOccluded entries :
  let r1 := snd (computeOcclusion fs entries) in
  let r2 := computePresence fs entries in
  let r3 := computeGPU fs isOccluded entries in
  (fillsWithin (length entries) r1 /\
   fst (bundleHandlerOutput (length entries) r1) = true) /\
  (fillsWithin (length entries) r2 /\
   fst (bundleHandlerOutput (length entries) r2) = true) /\
  (fillsWithin (length entries) r3 /\
   fst (bundleHandlerOutput (length entries) r3) = true).
Proof.
  cbv zeta.
  pose proof (computeOcclusion_fills fs entries) as H1.
  pose proof (computePresence_fills fs entries) as H2.
  pose proof (computeGPU_fills fs isOccluded entries) as H3.
  repeat split; try apply fillsWithin_assert; assumption.
Qed.

Lemma cpuBody_no_test fs b r x : ~ In (EvOccluded x) (snd (cpuBody fs b r)).
Proof.
  unfold areSingleRaysOccluded_body. case_ifs; simpl; rewrite ?in_app_iff;
    intuition discriminate.
Qed.

Lemma cpuLoop_tests fs k entries x :
  In (EvOccluded x) (snd (cpuLoop fs k entries)) -> In x entries.
Proof.
  revert k; induction entries as [|r rest IH]; intros k; simpl; [tauto|].
  pose proof (cpuBody_no_test fs (accelOccluded r) r x) as Hb.
  destruct (cpuBody fs (accelOccluded r) r) as [filled ev]. simpl in Hb.
  specialize (IH (k + length filled)).
  destruct (cpuLoop fs (k + length filled) rest) as [[n w] e]. simpl in *.
  intros [H|H]; [left; congruence|]. apply in_app_iff in H as [H|H]; [contradiction|].
  right. apply IH, H.
Qed.

Lemma forceLoop_no_test i entries x :
  ~ In (EvOccluded x) (snd (forceSingleRaysUnoccluded_loop getTransmittance i entries)).
Proof.
  revert i; induction entries as [|r rest IH]; intros i; simpl; [tauto|].
  destruct (forceSingleRaysUnoccluded_body getTransmittance r) as [rad ev] eqn:Eb.
  specialize (IH (S i)).
  destruct (forceSingleRaysUnoccluded_loop getTransmittance (S i) rest) as [w e].
  simpl in *. rewrite in_app_iff. intros [H|H]; [|contradiction].
  unfold forceSingleRaysUnoccluded_body in Eb. injection Eb as _ <-.
  revert H. case_ifs; simpl; intuition discriminate.
Qed.

(** C8 (amended): [computeOcclusionQueriesBundled] permutes the entry
    array in place so that every [STANDARD] ray comes before every
    [FORCE_NOT_OCCLUDED] ray, and the accelerator's occlusion test is
    issued only for [STANDARD] rays. *)
Theorem computeOcclusion_standard_first fs entries :
  let perm := fst (computeOcclusionQueriesBundled getTransmittance reduceTransparency listLight
                accelOccluded fs entries) in
  Permutation entries perm /\
  (exists k, Forall (fun r => mOcclTestType r = STANDARD) (firstn k perm) /\
             Forall (fun r => mOcclTestType r = FORCE_NOT_OCCLUDED) (skipn k perm)) /\
  (forall r, In (EvOccluded r)
               (snd (snd (computeOcclusionQueriesBundled getTransmittance reduceTransparency
                            listLight accelOccluded fs entries))) ->
             mOcclTestType r = STANDARD).
Proof.
  cbv zeta. unfold computeOcclusionQueriesBundled.
  destruct (std_partition_spec isStandard entries) as (P1 & P2 & P3).
  destruct (std_partition isStandard entries) as [a m]. simpl in *.
  assert (Hcls : forall i x, nth_error a i = Some x ->
                 (mOcclTestType x = STANDARD <-> i < m)).
  { intros i x Hx. rewrite <- (P3 i x Hx). unfold isStandard.
    destruct (mOcclTestType x); simpl; split; congruence. }
  destruct (if Nat.eqb m 0 then (0, [], [])
            else areSingleRaysOccluded getTransmittance reduceTransparency
                   listLight accelOccluded fs (firstn m a)) as [[t w1] e1] eqn:E1.
  assert (He1 : forall r, In (EvOccluded r) e1 -> In r (firstn m a)).
  { intros r Hr. destruct (Nat.eqb m 0); [injection E1 as _ _ <-; destruct Hr|].
    unfold areSingleRaysOccluded in E1. apply (cpuLoop_tests fs 0).
    rewrite E1. exact Hr. }
  destruct (if Nat.eqb (length a - m) 0 then (t, [], [])
            else let '(n, w, e) := forceSingleRaysUnoccluded getTransmittance (skipn m a) in
                 (t + n, shiftWrites t w, e)) as [[t2 w2] e2] eqn:E2.
  assert (He2 : forall r, ~ In (EvOccluded r) e2).
  { intros r Hr. destruct (Nat.eqb (length a - m) 0); [injection E2 as _ _ <-; destruct Hr|].
    unfold forceSingleRaysUnoccluded in E2.
    destruct (forceSingleRaysUnoccluded_loop getTransmittance 0 (skipn m a)) as [w e] eqn:Ef.
    injection E2 as _ _ <-. apply (forceLoop_no_test 0 (skipn m a) r). rewrite Ef. exact Hr. }
  simpl. split; [exact P1|split].
  - exists m. split.
    + apply Forall_forall. intros x Hx.
      apply In_nth_error in Hx as [i Hi].
      assert (i < m).
      { destruct (Nat.lt_ge_cases i m); auto.
        rewrite nth_error_firstn in Hi. destruct (Nat.ltb_spec i m); [lia|discriminate]. }
      rewrite nth_error_firstn in Hi. destruct (Nat.ltb_spec i m); [|lia].
      apply (Hcls i x Hi). assumption.
    + apply Forall_forall. intros x Hx.
      apply In_nth_error in Hx as [i Hi]. rewrite nth_error_skipn in Hi.
      pose proof (Hcls (m + i) x Hi) as Hc.
      destruct (mOcclTestType x); [|reflexivity].
      exfalso. destruct Hc as [Hc _]. specialize (Hc eq_refl). lia.
  - intros r Hr. apply in_app_iff in Hr as [Hr|Hr]; [|exfalso; exact (He2 r Hr)].
    apply He1 in Hr. apply In_nth_error in Hr as [i Hi].
    rewrite nth_error_firstn in Hi. destruct (Nat.ltb_spec i m); [|discriminate].
    apply (Hcls i r Hi). assumption.
Qed.

Lemma presenceLoop_eq fs l k :
  presenceLoop fs k l =
    (k + length l, indexFrom k (map (fun r => fst (presenceBody fs r)) l),
     flat_map (fun r => snd (presenceBody fs r)) l).
Proof.
  revert k; induction l as [|r rest IH]; intros k;
    cbn [computePresenceShadowsQueriesBundled_loop]; [now rewrite Nat.add_0_r|].
  destruct (presenceBody fs r) as [res ev] eqn:Eb. rewrite IH.
  cbn [map flat_map length]. rewrite Eb. unfold indexFrom. cbn [seq combine length].
  rewrite length_map. do 2 f_equal. lia.
Qed.

(** C6: [computePresenceShadowsQueriesBundled] writes exactly one
    [BundledRadiance] per ray, in order.  For each ray, with [p] its
    presence and [tr] its transmittance: the emitted radiance is the
    ray's radiance times [tr], further scaled by [1 - p] when shadowing is
    enabled and [p] is non-zero (the code's [isEqual(presence, 0)] test
    fails); the "unoccluded" light AOV is accumulated with the value
    [(1 - p) * tr] on every branch.  With [tr = (1,1,1)] and [p = 0.4]
    the radiance is [0.6] times the original and the AOV value [0.6 * tr]. *)
Theorem presence_scales_radiance_and_aov fs entries :
  computePresence fs entries =
    (length entries,
     indexFrom 0 (map (fun r => fst (presenceBody fs r)) entries),
     flat_map (fun r => snd (presenceBody fs r)) entries) /\
  forall r,
    let p := accumulateRayPresence (listLight (mDataPtrHandle r)) r in
    let tr := getTransmittance r in
    let rad := brRadiance (fst (presenceBody fs r)) in
    ceq rad (if isEqual p 0 || negb (getEnableShadowing fs)
             then cmul (mRadiance r) tr
             else cscale (1 - p) (cmul (mRadiance r) tr)) /\
    In (EvLightAovs (setRadiance r (cmul (mRadiance r) tr)) sWhite
                    (Some (cscale (1 - p) tr)) sLpePrefixUnoccluded)
       (snd (presenceBody fs r)) /\
    (tr = sWhite -> Qeq p (4 # 10) -> isEqual p 0 = false ->
     getEnableShadowing fs = true ->
     ceq rad (cscale (6 # 10) (mRadiance r)) /\
     ceq (cscale (1 - p) tr) (cscale (6 # 10) tr)).
Proof.
  split.
  - unfold computePresenceShadowsQueriesBundled.
    destruct entries as [|r0 rest]; [reflexivity|].
    apply presenceLoop_eq.
  - intros r. cbv zeta.
    unfold computePresenceShadowsQueriesBundled_body. simpl.
    destruct (isEqual _ 0 || negb (getEnableShadowing fs)) eqn:Ec.
    + split; [unfold ceq; simpl; repeat split; reflexivity|].
      split; [right; left; reflexivity|].
      intros _ _ Hp Hs. rewrite Hp, Hs in Ec. discriminate.
    + split; [unfold ceq; simpl; repeat split; ring|].
      split; [right; left; reflexivity|].
      intros Htr Hp _ _. rewrite Htr. unfold ceq; simpl.
      rewrite Hp. repeat split; ring.
Qed.

(** ** Handle release *)

Lemma cpuBody_releases fs b r :
  length (filter (freesList (mDataPtrHandle r)) (snd (cpuBody fs b r))) =
    (if Nat.eqb (mDataPtrHandle r) nullHandle then 0 else 1) /\
  length (filter (releasesDeep (mDeepDataHandle r)) (snd (cpuBody fs b r))) = 1 /\
  length (filter (releasesCrypto (mCryptomatteDataHandle r)) (snd (cpuBody fs b r))) = 1.
Proof.
  unfold areSingleRaysOccluded_body, setRadiance. cbn. case_ifs_refl;
    simpl in *; try discriminate; auto.
Qed.

Lemma forceBody_releases r :
  let ev := snd (forceSingleRaysUnoccluded_body getTransmittance r) in
  length (filter (freesList (mDataPtrHandle r)) ev) =
    (if Nat.eqb (mDataPtrHandle r) nullHandle then 0 else 1) /\
  length (filter (releasesDeep (mDeepDataHandle r)) ev) = 1 /\
  length (filter (releasesCrypto (mCryptomatteDataHandle r)) ev) = 1.
Proof.
  unfold forceSingleRaysUnoccluded_body, setRadiance. cbn. case_ifs_refl;
    simpl in *; try discriminate; auto.
Qed.

(** C2 (the code): the CPU occlusion resolver and the forced-unoccluded
    path free the side-data list of a ray once when it is non-null and
    release its deep-data and cryptomatte handles once each; the
    presence-shadow resolver never releases a ray's deep-data handle and
    the GPU resolver never releases a ray's cryptomatte handle. *)
Theorem occlusion_handle_releases fs b isOccluded i r :
  (length (filter (freesList (mDataPtrHandle r)) (snd (cpuBody fs b r))) =
     (if Nat.eqb (mDataPtrHandle r) nullHandle then 0 else 1) /\
   length (filter (releasesDeep (mDeepDataHandle r)) (snd (cpuBody fs b r))) = 1 /\
   length (filter (releasesCrypto (mCryptomatteDataHandle r)) (snd (cpuBody fs b r))) = 1) /\
  length (filter (releasesDeep (mDeepDataHandle r))
            (snd (forceSingleRaysUnoccluded_body getTransmittance r))) = 1 /\
  length (filter (releasesCrypto (mCryptomatteDataHandle r))
            (snd (forceSingleRaysUnoccluded_body getTransmittance r))) = 1 /\
  length (filter (releasesDeep (mDeepDataHandle r)) (snd (presenceBody fs r))) = 0 /\
  length (filter (releasesCrypto (mCryptomatteDataHandle r))
            (snd (gpuBody fs isOccluded i r))) = 0.
Proof.
  split; [apply cpuBody_releases|].
  destruct (forceBody_releases r) as (_ & F2 & F3).
  split; [exact F2|split; [exact F3|]].
  split.
  - unfold computePresenceShadowsQueriesBundled_body. reflexivity.
  - unfold computeXPUOcclusionQueriesOnGPU_body. simpl. case_ifs; simpl;
      rewrite ?filter_app, ?length_app; simpl; reflexivity.
Qed.

(** C3 (the code): on a [STANDARD] ray with the same occlusion answer,
    the GPU resolver fills the same radiances as the CPU resolver and
    makes the same calls, except that it omits the CPU resolver's final
    release of the ray's cryptomatte handle. *)
Theorem gpu_cpu_standard_parity fs isOccluded i r :
  mOcclTestType r = STANDARD ->
  fst (computeXPUOcclusionQueriesOnGPU_body getTransmittance reduceTransparency listLight
        fs isOccluded i r) =
    fst (areSingleRaysOccluded_body getTransmittance reduceTransparency listLight
        fs (isOccluded i) r) /\
  snd (areSingleRaysOccluded_body getTransmittance reduceTransparency listLight
        fs (isOccluded i) r) =
    snd (computeXPUOcclusionQueriesOnGPU_body getTransmittance reduceTransparency listLight
        fs isOccluded i r) ++
    [EvReleaseCryptomatteData (mCryptomatteDataHandle r)].
Proof.
  intros Hstd.
  unfold computeXPUOcclusionQueriesOnGPU_body, areSingleRaysOccluded_body.
  rewrite Hstd. simpl.
  case_ifs; simpl; split; try reflexivity; rewrite <- !app_assoc; reflexivity.
Qed.

(** ** Clear-radius falloff *)




End OcclusionFacts.

(** ** Sorting of the ray entries *)

Section SortFacts.

Lemma insertByKey_perm x l : Permutation (x :: l) (insertByKey x l).
Proof.
  induction l as [|y t IH]; simpl; [reflexivity|].
  destruct (Nat.leb (mSortKey x) (mSortKey y)); [reflexivity|].
  eapply perm_trans; [apply perm_swap|]. constructor. exact IH.
Qed.

Lemma comparisonSort_perm l : Permutation l (comparisonSort l).
Proof.
  induction l as [|x t IH]; simpl; [reflexivity|].
  eapply perm_trans; [|apply insertByKey_perm]. constructor. exact IH.
Qed.

Lemma insertByKey_hd y x t :
  mSortKey y <= mSortKey x ->
  HdRel (fun a b => mSortKey a <= mSortKey b) y t ->
  HdRel (fun a b => mSortKey a <= mSortKey b) y (insertByKey x t).
Proof.
  intros Hyx Ht. destruct t as [|z u]; simpl.
  - constructor. exact Hyx.
  - destruct (Nat.leb (mSortKey x) (mSortKey z)); constructor; [exact Hyx|].
    inversion Ht. assumption.
Qed.

Lemma insertByKey_sorted x l :
  Sorted (fun a b => mSortKey a <= mSortKey b) l ->
  Sorted (fun a b => mSortKey a <= mSortKey b) (insertByKey x l).
Proof.
  induction l as [|y t IH]; intros Hs; simpl.
  - repeat constructor.
  - destruct (Nat.leb (mSortKey x) (mSortKey y)) eqn:E.
    + apply Nat.leb_le in E. constructor; [exact Hs|constructor; exact E].
    + apply Nat.leb_gt in E. inversion Hs as [|? ? Ht Hhd]; subst.
      constructor; [apply IH, Ht|]. apply insertByKey_hd; [lia|exact Hhd].
Qed.

Lemma comparisonSort_sorted l :
  Sorted (fun a b => mSortKey a <= mSortKey b) (comparisonSort l).
Proof.
  induction l as [|x t IH]; simpl; [constructor|]. apply insertByKey_sorted, IH.
Qed.

Lemma insertByKey_skip x A B :
  (forall y, In y A -> mSortKey y < mSortKey x) ->
  insertByKey x (A ++ B) = A ++ insertByKey x B.
Proof.
  induction A as [|y A IH]; intros H; simpl; [reflexivity|].
  assert (Hy : mSortKey y < mSortKey x) by (apply H; left; reflexivity).
  destruct (Nat.leb (mSortKey x) (mSortKey y)) eqn:E.
  - apply Nat.leb_le in E. lia.
  - rewrite IH; [reflexivity|]. intros z Hz. apply H. right. exact Hz.
Qed.

Lemma insertByKey_front x B :
  (forall y, In y B -> mSortKey x <= mSortKey y) ->
  insertByKey x B = x :: B.
Proof.
  destruct B as [|y B]; intros H; simpl; [reflexivity|].
  assert (Hy : mSortKey x <= mSortKey y) by (apply H; left; reflexivity).
  apply Nat.leb_le in Hy. rewrite Hy. reflexivity.
Qed.

Lemma buckets_keys_ge l s n y :
  In y (flat_map (fun k => filter (fun e => Nat.eqb (mSortKey e) k) l) (seq s n)) ->
  s <= mSortKey y.
Proof.
  intros H. apply in_flat_map in H as (k & Hk & Hy).
  apply in_seq in Hk. apply filter_In in Hy as [_ E]. apply Nat.eqb_eq in E. lia.
Qed.

Lemma buckets_other_key x l s n :
  (mSortKey x < s \/ s + n <= mSortKey x) ->
  flat_map (fun k => filter (fun e => Nat.eqb (mSortKey e) k) (x :: l)) (seq s n) =
  flat_map (fun k => filter (fun e => Nat.eqb (mSortKey e) k) l) (seq s n).
Proof.
  revert s; induction n as [|n IH]; intros s Hx; simpl; [reflexivity|].
  destruct (Nat.eqb (mSortKey x) s) eqn:E; [apply Nat.eqb_eq in E; lia|].
  rewrite IH; [reflexivity|lia].
Qed.

Lemma buckets_insert x l s n :
  s <= mSortKey x < s + n ->
  flat_map (fun k => filter (fun e => Nat.eqb (mSortKey e) k) (x :: l)) (seq s n) =
  insertByKey x (flat_map (fun k => filter (fun e => Nat.eqb (mSortKey e) k) l) (seq s n)).
Proof.
  revert s; induction n as [|n IH]; intros s Hx; [lia|].
  cbn [seq flat_map].
  destruct (Nat.eqb (mSortKey x) s) eqn:E.
  - apply Nat.eqb_eq in E.
    rewrite buckets_other_key by lia.
    cbn [filter]. rewrite (proj2 (Nat.eqb_eq _ _) E).
    symmetry. apply insertByKey_front.
    intros y Hy. apply in_app_or in Hy as [Hy|Hy].
    + apply filter_In in Hy as [_ Ey]. apply Nat.eqb_eq in Ey. lia.
    + apply buckets_keys_ge in Hy. lia.
  - apply Nat.eqb_neq in E.
    cbn [filter]. rewrite (proj2 (Nat.eqb_neq _ _) E).
    rewrite insertByKey_skip.
    + rewrite IH by lia. reflexivity.
    + intros y Hy. apply filter_In in Hy as [_ Ey]. apply Nat.eqb_eq in Ey. lia.
Qed.

(** With every key at most [maxKey] the bucket sort and the comparison
    sort are the same stable sort. *)
Lemma bucketSort_comparisonSort maxKey l :
  Forall (fun e => mSortKey e <= maxKey) l ->
  bucketSort maxKey l = comparisonSort l.
Proof.
  unfold bucketSort. induction l as [|x t IH]; intros Hk.
  - generalize (seq 0 (S maxKey)). intros ks. induction ks as [|k ks IHk]; simpl; auto.
  - inversion Hk; subst. simpl comparisonSort. rewrite <- IH by assumption.
    apply buckets_insert. lia.
Qed.

Lemma smartSort32_comparisonSort n l maxKey :
  Forall (fun e => mSortKey e <= maxKey) l ->
  smartSort32 n l maxKey = comparisonSort l.
Proof.
  intros Hk. unfold smartSort32.
  destruct (Nat.ltb n RAY_HANDLER_STD_SORT_CUTOFF);
    [apply bucketSort_comparisonSort, Hk|reflexivity].
Qed.

Lemma sorted_nth_le (l : list SortedEntry) d i j :
  Sorted (fun a b => mSortKey a <= mSortKey b) l ->
  i <= j < length l ->
  mSortKey (nth i l d) <= mSortKey (nth j l d).
Proof.
  intros Hs. apply Sorted_StronglySorted in Hs; [|intros a b c; lia].
  revert i j; induction Hs as [|x t Ht IH Hall]; intros i j Hij; simpl in *; [lia|].
  destruct i as [|i], j as [|j]; try lia.
  - rewrite Forall_forall in Hall. apply Hall, nth_In. lia.
  - apply IH. lia.
Qed.

End SortFacts.

(** ** Facts of [rayBundleHandler] *)

Section RayBundleFacts.

Variable intersectionMaterial : RayState -> option Material.
Variable raySwitch : nat -> Material -> Material.
Variable intersectVisibleLight : RayState -> option (Light * nat).
Variable lightEval : Light -> RayState -> Color.
Variable reduceTransparency : Color -> Q.

Lemma buildSortedEntries_keys fs pool rayStates entries maxKey toFree ev :
  (forall rs m, intersectionMaterial rs = Some m ->
                1 <= getMaterialId (raySwitch (rsLobeType rs) m)) ->
  (forall e, In e entries ->
     (mSortKey e = 0 <-> rsGeomID (pool (mRsIdx e)) = (-1)%Z) /\ mSortKey e <= maxKey) ->
  let '(entries', maxKey', _, _) :=
    buildSortedEntries intersectionMaterial raySwitch reduceTransparency fs pool rayStates
      (entries, maxKey, toFree, ev) in
  forall e, In e entries' ->
    (mSortKey e = 0 <-> rsGeomID (pool (mRsIdx e)) = (-1)%Z) /\ mSortKey e <= maxKey'.
Proof.
  intros Hmat. revert entries maxKey toFree ev.
  induction rayStates as [|i rest IH]; intros entries maxKey toFree ev Hinv; simpl;
    [exact Hinv|].
  destruct (Z.eqb (rsGeomID (pool i)) (-1)) eqn:Eg.
  - apply IH. intros e He. apply in_app_or in He as [He|[He|[]]]; [apply Hinv, He|].
    subst e. simpl. apply Z.eqb_eq in Eg. split; [tauto|lia].
  - destruct (intersectionMaterial (pool i)) as [m|] eqn:Em.
    + apply IH. intros e He. apply in_app_or in He as [He|[He|[]]].
      * destruct (Hinv e He) as [H1 H2]. split; [exact H1|lia].
      * subst e. simpl. pose proof (Hmat _ _ Em) as Hm.
        apply Z.eqb_neq in Eg. split; [split; intros; [lia|contradiction]|lia].
    + apply IH. exact Hinv.
Qed.

(** C4: give every hit material an id of at least 1.  Then in every
    batch the miss entries get key 0 and only they do; every key is at
    most the [maxSortKey] handed to [smartSort32]; the bucket-sort path
    and the comparison-sort path return the same array; and the sorted
    array is a permutation of the entries, ascending by key, so that the
    entries of each key (the misses with key 0 first) form one contiguous
    run. *)
Theorem sort_keys_grouped fs pool rayStates :
  (forall rs m, intersectionMaterial rs = Some m ->
                1 <= getMaterialId (raySwitch (rsLobeType rs) m)) ->
  let '(entries, maxSortKey, _, _) :=
    buildSortedEntries intersectionMaterial raySwitch reduceTransparency fs pool rayStates
      ([], 0, [], []) in
  let sorted := smartSort32 (length entries) entries maxSortKey in
  (forall e, In e entries ->
     (mSortKey e = 0 <-> rsGeomID (pool (mRsIdx e)) = (-1)%Z) /\
     mSortKey e <= maxSortKey) /\
  bucketSort maxSortKey entries = comparisonSort entries /\
  Permutation entries sorted /\
  (forall d i j, i <= j < length sorted ->
     mSortKey (nth i sorted d) <= mSortKey (nth j sorted d)) /\
  (forall d i j k, i <= j -> j <= k -> k < length sorted ->
     mSortKey (nth i sorted d) = mSortKey (nth k sorted d) ->
     mSortKey (nth j sorted d) = mSortKey (nth i sorted d)).
Proof.
  intros Hmat.
  pose proof (buildSortedEntries_keys fs pool rayStates [] 0 [] [] Hmat) as Hk.
  destruct (buildSortedEntries intersectionMaterial raySwitch reduceTransparency fs pool
              rayStates ([], 0, [], [])) as [[[entries maxSortKey] toFree] ev].
  assert (Hinv : forall e, In e entries ->
            (mSortKey e = 0 <-> rsGeomID (pool (mRsIdx e)) = (-1)%Z) /\
            mSortKey e <= maxSortKey) by (apply Hk; intros e []).
  assert (Hall : Forall (fun e => mSortKey e <= maxSortKey) entries).
  { apply Forall_forall. intros e He. apply Hinv, He. }
  cbv zeta. rewrite (smartSort32_comparisonSort _ _ _ Hall).
  split; [exact Hinv|].
  split; [apply bucketSort_comparisonSort, Hall|].
  split; [apply comparisonSort_perm|].
  assert (Hmono : forall d i j, i <= j < length (comparisonSort entries) ->
            mSortKey (nth i (comparisonSort entries) d) <=
            mSortKey (nth j (comparisonSort entries) d))
    by (intros d i j Hij; apply sorted_nth_le; [apply comparisonSort_sorted|exact Hij]).
  split; [exact Hmono|].
  intros d i j k Hij Hjk Hk' Heq.
  pose proof (Hmono d i j ltac:(lia)). pose proof (Hmono d j k ltac:(lia)). lia.
Qed.

End RayBundleFacts.

(** ** Retiring a miss *)

Section MissFacts.

Variable intersectVisibleLight : RayState -> option (Light * nat).
Variable lightEval : Light -> RayState -> Color.
Variable reduceTransparency : Color -> Q.

(** C9 (the code): for a primary ray (depth 0) the miss handler never
    makes the light-event transition and never accumulates the light
    AOVs, whatever light it finds: the [hitLight] the LPE code reads is
    the outer one, never assigned, and the transitioned [lpeStateId] is a
    second variable, dropped at the end of its block. *)
Theorem primary_miss_skips_light_lpe fs rsIdx rs :
  rsDepth rs = 0 ->
  existsb isLightEventTransition
    (snd (missEntry intersectVisibleLight lightEval reduceTransparency fs rsIdx rs)) = false /\
  existsb isLightAovsBundled
    (snd (missEntry intersectVisibleLight lightEval reduceTransparency fs rsIdx rs)) = false.
Proof.
  intros Hd. unfold missEntry. rewrite Hd. simpl.
  destruct (intersectVisibleLight rs) as [[l n]|];
    destruct (aovSchemaEmpty fs); simpl; try (split; reflexivity);
    destruct (rsVolHit rs && Qlt_bool (rsVolumeSurfaceT rs) sMaxValue); simpl;
    split; reflexivity.
Qed.

(** C5 (amended): the miss handler follows the five-case alpha policy on
    primary rays only; a non-primary miss gets no light radiance and
    alpha 0.  The volume radiance is always added, so a miss with no
    volume (no volume hit, no volume radiance) and no light found yields
    radiance (0,0,0) and alpha 0. *)
Theorem miss_radiance_alpha fs rsIdx rs :
  let rad := fst (missEntry intersectVisibleLight lightEval reduceTransparency fs rsIdx rs) in
  let volAlpha := (rsPathPixelWeight rs * (1 - reduceTransparency (rsVolTalpha rs)))%Q in
  (rsDepth rs = 0 ->
   match intersectVisibleLight rs with
   | Some (l, n) =>
       let lr := cscaleR (cmul (rsPathThroughput rs) (lightEval l rs))
                         (inject_Z (Z.of_nat n)) in
       brRadiance rad =
         cadd (if rsVolHit rs then cmul lr (cmul (rsVolTr rs) (rsVolTh rs)) else lr)
              (rsVolRad rs) /\
       brAlpha rad =
         (if getIsOpaqueInAlpha l then rsPathPixelWeight rs
          else if rsVolHit rs then volAlpha else 0%Q)
   | None =>
       brRadiance rad = cadd sBlack (rsVolRad rs) /\
       brAlpha rad = (if rsVolHit rs then volAlpha else 0%Q)
   end) /\
  (rsDepth rs <> 0 ->
   brRadiance rad = cadd sBlack (rsVolRad rs) /\ brAlpha rad = 0%Q) /\
  (rsVolHit rs = false -> ceq (rsVolRad rs) sBlack ->
   (rsDepth rs <> 0 \/ intersectVisibleLight rs = None) ->
   ceq (brRadiance rad) sBlack /\ brAlpha rad = 0%Q).
Proof.
  cbv zeta. unfold missEntry.
  split; [|split].
  - intros Hd. rewrite Hd. simpl.
    destruct (intersectVisibleLight rs) as [[l n]|]; simpl; split; reflexivity.
  - intros Hd. apply Nat.eqb_neq in Hd. rewrite Hd. simpl. split; reflexivity.
  - intros Hv [E1 [E2 E3]] Hcase.
    assert (Hb : forall c : Color, ceq (cadd sBlack c) sBlack <-> ceq c sBlack).
    { intros c. unfold ceq, cadd; simpl. rewrite !Qplus_0_l. tauto. }
    destruct Hcase as [Hd|Hn].
    + apply Nat.eqb_neq in Hd. rewrite Hd. simpl.
      split; [apply Hb; repeat split; assumption|reflexivity].
    + rewrite Hn, Hv. destruct (Nat.eqb (rsDepth rs) 0); simpl;
        (split; [apply Hb; repeat split; assumption|reflexivity]).
Qed.

End MissFacts.

(** ** The ray bundle handler: trace-level facts *)
Section SortKeyFacts.
Local Open Scope Z_scope.

Lemma pack_fields (g p : Z) :
  let a := Z.land g 4095 in
  let b := Z.land p 1048575 in
  (Z.lor (Z.shiftl a 20) b = a * 2 ^ 20 + b /\ 0 <= a < 2 ^ 12 /\ 0 <= b < 2 ^ 20)%Z.
Proof.
  intros a b.
  assert (Ha : a = g mod 2 ^ 12) by (unfold a; change 4095%Z with (Z.ones 12); apply Z.land_ones; lia).
  assert (Hb : b = p mod 2 ^ 20) by (unfold b; change 1048575%Z with (Z.ones 20); apply Z.land_ones; lia).
  assert (Ra : 0 <= a < 2 ^ 12) by (rewrite Ha; apply Z.mod_pos_bound; lia).
  assert (Rb : 0 <= b < 2 ^ 20) by (rewrite Hb; apply Z.mod_pos_bound; lia).
  split; [|split; assumption].
  rewrite Z.shiftl_mul_pow2 by lia.
  assert (Hd : Z.land (a * 2 ^ 20) b = 0).
  { apply Z.bits_inj'; intros n Hn. rewrite Z.land_spec, Z.bits_0.
    destruct (Z.lt_ge_cases n 20) as [Hlt|Hge].
    - rewrite Z.mul_pow2_bits_low by lia. reflexivity.
    - assert (Hl : Z.log2 b < n).
      { destruct (Z.eq_dec b 0) as [->|Hb0]; [simpl; lia|].
        apply Z.log2_lt_pow2; [lia|]. apply Z.lt_le_trans with (2 ^ 20); [lia|].
        apply Z.pow_le_mono_r; lia. }
      rewrite (Z.bits_above_log2 b n) by lia.
      apply andb_false_r. }
  rewrite <- Z.lxor_lor, <- Z.add_nocarry_lxor by exact Hd; reflexivity.
Qed.

(** X1: the shade sort key packs the low 12 bits of the geometry id above
    the low 20 bits of the primitive id: it is a 32-bit value, shifting it
    right by 20 gives [geomID & 0xfff] and masking it with [0xfffff]
    gives [primID & 0xfffff]. *)
Theorem shadeSortKey_fields rs :
  (0 <= shadeSortKey rs < 2 ^ 32 /\
   Z.shiftr (shadeSortKey rs) 20 = Z.land (rsGeomID rs) 4095 /\
   Z.land (shadeSortKey rs) 1048575 = Z.land (rsPrimID rs) 1048575)%Z.
Proof.
  unfold shadeSortKey.
  destruct (pack_fields (rsGeomID rs) (rsPrimID rs)) as (E & Ra & Rb).
  rewrite E.
  set (a := Z.land (rsGeomID rs) 4095) in *.
  set (b := Z.land (rsPrimID rs) 1048575) in *.
  split; [|split].
  - change (2 ^ 32) with (2 ^ 12 * 2 ^ 20). nia.
  - rewrite Z.shiftr_div_pow2 by lia.
    rewrite Z.div_add_l by lia. rewrite Z.div_small by lia. lia.
  - change 1048575 with (Z.ones 20). rewrite Z.land_ones by lia.
    rewrite Z.add_comm, Z.mod_add by lia. apply Z.mod_small; lia.
Qed.

End SortKeyFacts.



Lemma spanEndScan_spec fuel mem endE p key :
  p <= endE -> endE - p < fuel ->
  exists q, spanEndScan fuel mem endE p key = Some q /\ p <= q <= endE /\
    (forall j, p <= j < q -> mSortKey (mem j) = key) /\
    (q < endE -> mSortKey (mem q) <> key).
Proof.
  revert p; induction fuel as [|f IH]; intros p Hp Hf; [lia|].
  simpl. destruct (Nat.eqb_spec p endE) as [->|Hne].
  - exists endE. split; [reflexivity|]. split; [lia|]. split; [intros j Hj; lia|lia].
  - destruct (Nat.eqb_spec (mSortKey (mem p)) key) as [Ek|Ek].
    + destruct (IH (S p)) as (q & Eq & Hq & Hin & Hout); try lia.
      exists q. split; [exact Eq|]. split; [lia|]. split; [|exact Hout]. intros j Hj.
      destruct (Nat.eq_dec j p) as [->|]; [exact Ek|apply Hin; lia].
    + exists p. split; [reflexivity|]. split; [lia|]. split; [intros j Hj; lia|auto].
Qed.

Section Dispatch.
Variable pool : nat -> RayState.
Variable mem : nat -> SortedEntry.
Variable N : nat.
Hypothesis Hsorted : forall i j, i <= j < N -> mSortKey (mem i) <= mSortKey (mem j).


Lemma dispatchLoop_spec fuel cur :
  cur <= N -> N - cur < fuel ->
  let '(ev, ok) := dispatchLoop fuel pool mem N cur in
  ok = true /\ freedStates ev = [] /\
  forwardedStates ev = map (fun j => mRsIdx (mem j)) (seq cur (N - cur)) /\
  exists js, Forall2 (shadeCallFrom pool mem N) js (shadeCalls ev) /\
    Forall (fun j => cur <= j < N) js /\
    StronglySorted lt (map (fun j => mSortKey (mem j)) js).
Proof.
  revert cur; induction fuel as [|f IH]; intros cur Hc Hf; [lia|].
  cbn [dispatchLoop]. destruct (Nat.eqb_spec cur N) as [->|Hne].
  - rewrite Nat.sub_diag. split; [reflexivity|]. split; [reflexivity|].
    split; [reflexivity|]. exists []. split; [constructor|]. split; constructor.
  - destruct (spanEndScan_spec (S (S f)) mem N (S cur) (mSortKey (mem cur)))
      as (q & Eq & Hq & Hin & Hout); try lia.
    rewrite Eq.
    specialize (IH q ltac:(lia) ltac:(lia)).
    destruct (dispatchLoop f pool mem N q) as [ev ok] eqn:Ed.
    destruct IH as (Hok & Hfr & Hfw & js & Hjs & Hb & Hss).
    split; [exact Hok|]. split; [exact Hfr|].
    split.
    + unfold forwardedStates in *. simpl. rewrite Hfw, map_map. simpl.
      rewrite <- map_app. f_equal.
      replace q with (cur + (q - cur)) at 2 by lia. rewrite <- seq_app. f_equal. lia.
    + exists (cur :: js). split; [|split].
      * constructor; [|exact Hjs].
        split; [reflexivity|]. split.
        -- destruct (q - cur) eqn:E; [lia|]. simpl. discriminate.
        -- apply Forall_forall. intros x Hx. apply in_map_iff in Hx as (j' & <- & Hj').
           apply in_seq in Hj'. exists j'. split; [lia|]. split; [|reflexivity].
           destruct (Nat.eq_dec j' cur) as [->|]; [reflexivity|apply Hin; lia].
      * constructor; [lia|]. eapply Forall_impl; [|exact Hb]. simpl. lia.
      * simpl. constructor; [exact Hss|].
        apply Forall_forall. intros k Hk. apply in_map_iff in Hk as (j & <- & Hj).
        rewrite Forall_forall in Hb. specialize (Hb j Hj).
        assert (Hqn : q < N) by lia.
        specialize (Hout Hqn).
        pose proof (Hsorted cur q ltac:(lia)). pose proof (Hsorted q j ltac:(lia)). lia.
Qed.

End Dispatch.

Lemma skipn_nth_cons {A} (L : list A) a d :
  a < length L -> skipn a L = nth a L d :: skipn (S a) L.
Proof.
  revert a; induction L as [|x t IH]; intros a H; simpl in H; [lia|].
  destruct a as [|a]; [reflexivity|]. simpl. apply IH. lia.
Qed.

Lemma map_nth_seq {A B} (f : A -> B) (L : list A) (g : nat -> A) a b :
  a + b <= length L ->
  map (fun j => f (nth j L (g j))) (seq a b) = map f (firstn b (skipn a L)).
Proof.
  revert a; induction b as [|b IH]; intros a H; [reflexivity|].
  simpl. rewrite (skipn_nth_cons L a (g a)) by lia. simpl. f_equal. apply IH. lia.
Qed.

Lemma filter_disjoint_app {A} (p q : A -> bool) l :
  (forall x, p x = true -> q x = false) ->
  Permutation (filter p l ++ filter q l) (filter (fun x => p x || q x) l).
Proof.
  intros Hd. induction l as [|x t IH]; simpl; [reflexivity|].
  destruct (p x) eqn:Ep; simpl.
  - rewrite (Hd x Ep). constructor. exact IH.
  - destruct (q x); simpl; [|exact IH].
    eapply perm_trans; [apply Permutation_sym, Permutation_middle|]. constructor. exact IH.
Qed.

Lemma freedStates_app a b : freedStates (a ++ b) = freedStates a ++ freedStates b.
Proof. apply flat_map_app. Qed.
Lemma shadeCalls_app a b : shadeCalls (a ++ b) = shadeCalls a ++ shadeCalls b.
Proof. apply flat_map_app. Qed.
Lemma queuedRadiances_app a b :
  queuedRadiances (a ++ b) = queuedRadiances a ++ queuedRadiances b.
Proof. apply flat_map_app. Qed.
Lemma visibilityAttempts_app a b :
  visibilityAttempts (a ++ b) = visibilityAttempts a ++ visibilityAttempts b.
Proof. apply flat_map_app. Qed.

Lemma queuedRadiances_nil ev :
  (forall e, In e ev -> queuedRadiances [e] = []) -> queuedRadiances ev = [].
Proof.
  induction ev as [|e t IH]; intros H; [reflexivity|].
  change (e :: t) with ([e] ++ t). rewrite queuedRadiances_app, (H e (or_introl eq_refl)).
  apply IH. intros x Hx. apply H. right. exact Hx.
Qed.
Lemma visibilityAttempts_nil ev :
  (forall e, In e ev -> visibilityAttempts [e] = []) -> visibilityAttempts ev = [].
Proof.
  induction ev as [|e t IH]; intros H; [reflexivity|].
  change (e :: t) with ([e] ++ t). rewrite visibilityAttempts_app, (H e (or_introl eq_refl)).
  apply IH. intros x Hx. apply H. right. exact Hx.
Qed.

(** The dispatch loop only ever adds shade-queue entries. *)
Lemma dispatchLoop_events fuel pool mem N cur e :
  In e (fst (dispatchLoop fuel pool mem N cur)) ->
  exists m l, e = EvShadeQueueAddEntries m l.
Proof.
  revert cur; induction fuel as [|f IH]; intros cur; cbn [dispatchLoop]; [intros []|].
  destruct (Nat.eqb cur N); [intros []|].
  destruct (spanEndScan _ _ _ _ _) as [q|]; [|intros []].
  specialize (IH q). destruct (dispatchLoop f pool mem N q) as [ev ok].
  intros [<-|He]; [eauto|exact (IH He)].
Qed.

Section BuildFacts.
Variable intersectionMaterial : RayState -> option Material.
Variable raySwitch : nat -> Material -> Material.
Variable intersectVisibleLight : RayState -> option (Light * nat).
Variable lightEval : Light -> RayState -> Color.
Variable reduceTransparency : Color -> Q.

Local Abbreviation entryOf pool := (fun i : nat =>
  let rs := pool i in
  if Z.eqb (rsGeomID rs) (-1) then [mkSortedEntry 0 i None] else
  match intersectionMaterial rs with
  | Some m => let m' := raySwitch (rsLobeType rs) m in [mkSortedEntry (getMaterialId m') i (Some m')]
  | None => []
  end).

Local Abbreviation volumeRadianceOf pool := (fun i : nat =>
  mkBundledRadiance (rsVolRad (pool i))
    (if Nat.eqb (rsDepth (pool i)) 0 then
       Qmult (rsPathPixelWeight (pool i)) (Qminus 1 (reduceTransparency (rsVolTalpha (pool i))))
     else 0%Q) (rsPathPixelWeight (pool i))
    (rsPixel (pool i)) (rsDeepDataHandle (pool i)) (rsCryptomatteDataHandle (pool i))).

Local Abbreviation prePassEvents fs pool := (fun i : nat =>
  if Z.eqb (rsGeomID (pool i)) (-1) then
    (if Nat.eqb (rsDepth (pool i)) 0 && negb (aovSchemaEmpty fs)
     then [EvVisibilityAttempts (rsPixel (pool i)) (totalLightSamples fs)] else [])
  else match intersectionMaterial (pool i) with
       | Some _ => []
       | None => if rsVolHit (pool i)
                 then [EvAddRadianceQueueEntries [volumeRadianceOf pool i]] else []
       end).

Lemma buildSortedEntries_eq fs pool rayStates entries maxKey toFree ev :
  exists maxKey',
    buildSortedEntries intersectionMaterial raySwitch reduceTransparency fs pool rayStates
      (entries, maxKey, toFree, ev) =
    (entries ++ flat_map (entryOf pool) rayStates, maxKey',
     toFree ++ filter (fun i => negb (Z.eqb (rsGeomID (pool i)) (-1)) &&
                                match intersectionMaterial (pool i) with
                                | Some _ => false | None => true end) rayStates,
     ev ++ flat_map (prePassEvents fs pool) rayStates).
Proof.
  revert entries maxKey toFree ev.
  induction rayStates as [|i rest IH]; intros entries maxKey toFree ev.
  - exists maxKey. simpl. rewrite !app_nil_r. reflexivity.
  - cbn [buildSortedEntries flat_map filter]. cbv beta zeta.
    destruct (Z.eqb (rsGeomID (pool i)) (-1)); simpl.
    + edestruct IH as [k' ->]. exists k'. rewrite <- !app_assoc. reflexivity.
    + destruct (intersectionMaterial (pool i)) as [m|]; simpl.
      * edestruct IH as [k' ->]. exists k'. rewrite <- !app_assoc. reflexivity.
      * edestruct IH as [k' ->]. exists k'. rewrite <- !app_assoc. reflexivity.
Qed.

Lemma prePassEvents_calls fs pool rayStates :
  freedStates (flat_map (prePassEvents fs pool) rayStates) = [] /\
  shadeCalls (flat_map (prePassEvents fs pool) rayStates) = [] /\
  queuedRadiances (flat_map (prePassEvents fs pool) rayStates) =
    map (volumeRadianceOf pool)
      (filter (fun i => negb (Z.eqb (rsGeomID (pool i)) (-1)) &&
                        match intersectionMaterial (pool i) with
                        | Some _ => false | None => true end && rsVolHit (pool i)) rayStates) /\
  visibilityAttempts (flat_map (prePassEvents fs pool) rayStates) =
    (if aovSchemaEmpty fs then [] else
     map (fun i => (rsPixel (pool i), totalLightSamples fs))
       (filter (fun i => Z.eqb (rsGeomID (pool i)) (-1) && Nat.eqb (rsDepth (pool i)) 0)
          rayStates)).
Proof.
  induction rayStates as [|i rest IH]; [destruct (aovSchemaEmpty fs); repeat split|].
  destruct IH as (H1 & H2 & H3 & H4).
  cbn [flat_map filter].
  unfold freedStates, shadeCalls, queuedRadiances, visibilityAttempts in *.
  rewrite !flat_map_app, H1, H2, H3, H4.
  destruct (Z.eqb (rsGeomID (pool i)) (-1)); simpl.
  - destruct (Nat.eqb (rsDepth (pool i)) 0), (aovSchemaEmpty fs); simpl; repeat split.
  - destruct (intersectionMaterial (pool i)); simpl; [repeat split|].
    destruct (rsVolHit (pool i)); simpl; repeat split.
Qed.

Lemma buildSortedEntries_shape fs pool rayStates entries maxKey toFree ev :
  let '(entries', _, toFree', ev') :=
    buildSortedEntries intersectionMaterial raySwitch reduceTransparency fs pool rayStates
      (entries, maxKey, toFree, ev) in
  entries' = entries ++ flat_map (entryOf pool) rayStates /\
  toFree' = toFree ++ filter (fun i => negb (Z.eqb (rsGeomID (pool i)) (-1)) &&
                                      match intersectionMaterial (pool i) with
                                      | Some _ => false | None => true end) rayStates /\
  freedStates ev' = freedStates ev /\ shadeCalls ev' = shadeCalls ev.
Proof.
  destruct (buildSortedEntries_eq fs pool rayStates entries maxKey toFree ev) as [k ->].
  destruct (prePassEvents_calls fs pool rayStates) as (H1 & H2 & _).
  split; [reflexivity|]. split; [reflexivity|].
  rewrite freedStates_app, shadeCalls_app, H1, H2, !app_nil_r. split; reflexivity.
Qed.

Lemma entryOf_cases pool l e :
  In e (flat_map (entryOf pool) l) ->
  In (mRsIdx e) l /\
  ((mSortKey e = 0 /\ mMaterial e = None /\ rsGeomID (pool (mRsIdx e)) = (-1)%Z) \/
   (exists m0, rsGeomID (pool (mRsIdx e)) <> (-1)%Z /\
      intersectionMaterial (pool (mRsIdx e)) = Some m0 /\
      mMaterial e = Some (raySwitch (rsLobeType (pool (mRsIdx e))) m0) /\
      mSortKey e = getMaterialId (raySwitch (rsLobeType (pool (mRsIdx e))) m0))).
Proof.
  intros He. apply in_flat_map in He as (i & Hi & He). cbv beta zeta in He.
  destruct (Z.eqb (rsGeomID (pool i)) (-1)) eqn:Eg.
  - destruct He as [<-|[]]. simpl. split; [exact Hi|]. left. apply Z.eqb_eq in Eg. auto.
  - apply Z.eqb_neq in Eg. destruct (intersectionMaterial (pool i)) as [m|] eqn:Em; [|destruct He].
    destruct He as [<-|[]]. simpl. split; [exact Hi|]. right. exists m. auto.
Qed.

Lemma entryOf_length pool l : length (flat_map (entryOf pool) l) <= length l.
Proof.
  induction l as [|i t IH]; simpl; [lia|]. rewrite length_app. cbv beta zeta in *.
  destruct (Z.eqb (rsGeomID (pool i)) (-1)); [simpl; lia|].
  destruct (intersectionMaterial (pool i)); simpl; lia.
Qed.

Hypothesis Hmat : forall rs m, intersectionMaterial rs = Some m ->
                  1 <= getMaterialId (raySwitch (rsLobeType rs) m).

Lemma entryOf_misses pool l :
  map mRsIdx (filter (fun e => Nat.eqb (mSortKey e) 0) (flat_map (entryOf pool) l)) =
  filter (fun i => Z.eqb (rsGeomID (pool i)) (-1)) l.
Proof.
  induction l as [|i t IH]; simpl in *; [reflexivity|].
  rewrite filter_app, map_app, IH.
  destruct (Z.eqb (rsGeomID (pool i)) (-1)); [reflexivity|].
  destruct (intersectionMaterial (pool i)) as [m|] eqn:Em; [|reflexivity].
  simpl. pose proof (Hmat _ _ Em) as H.
  destruct (Nat.eqb_spec (getMaterialId (raySwitch (rsLobeType (pool i)) m)) 0); [lia|reflexivity].
Qed.

Lemma entryOf_hits pool l :
  map mRsIdx (filter (fun e => negb (Nat.eqb (mSortKey e) 0)) (flat_map (entryOf pool) l)) =
  filter (fun i => negb (Z.eqb (rsGeomID (pool i)) (-1)) &&
                   match intersectionMaterial (pool i) with Some _ => true | None => false end) l.
Proof.
  induction l as [|i t IH]; simpl in *; [reflexivity|].
  rewrite filter_app, map_app, IH.
  destruct (Z.eqb (rsGeomID (pool i)) (-1)); [reflexivity|].
  destruct (intersectionMaterial (pool i)) as [m|] eqn:Em; [|reflexivity].
  simpl. pose proof (Hmat _ _ Em) as H.
  destruct (Nat.eqb_spec (getMaterialId (raySwitch (rsLobeType (pool i)) m)) 0); [lia|reflexivity].
Qed.
End BuildFacts.

Lemma Permutation_filter {A} (p : A -> bool) l l' :
  Permutation l l' -> Permutation (filter p l) (filter p l').
Proof.
  induction 1; simpl.
  - constructor.
  - destruct (p x); [constructor|]; assumption.
  - destruct (p x), (p y); try constructor; try reflexivity.
  - eapply perm_trans; eassumption.
Qed.

Lemma filter_all {A} (p : A -> bool) l : (forall x, In x l -> p x = true) -> filter p l = l.
Proof.
  induction l as [|x t IH]; intros H; simpl; [reflexivity|].
  rewrite (H x (or_introl eq_refl)). f_equal. apply IH. intros y Hy. apply H. right. exact Hy.
Qed.

Lemma filter_none {A} (p : A -> bool) l : (forall x, In x l -> p x = false) -> filter p l = [].
Proof.
  induction l as [|x t IH]; intros H; simpl; [reflexivity|].
  rewrite (H x (or_introl eq_refl)). apply IH. intros y Hy. apply H. right. exact Hy.
Qed.

(** A list whose first [m] keys are 0 and the others not splits at [m]
    into its key-0 entries and the rest. *)
Lemma split_at_misses (L : list SortedEntry) m :
  m <= length L ->
  (forall d j, j < m -> mSortKey (nth j L d) = 0) ->
  (forall d j, m <= j < length L -> mSortKey (nth j L d) <> 0) ->
  firstn m L = filter (fun e => Nat.eqb (mSortKey e) 0) L /\
  skipn m L = filter (fun e => negb (Nat.eqb (mSortKey e) 0)) L.
Proof.
  intros Hm Hlo Hhi.
  rewrite <- (firstn_skipn m L) at 2 4. rewrite !filter_app.
  assert (Hf : forall x, In x (firstn m L) -> mSortKey x = 0).
  { intros x Hx. destruct (In_nth _ _ x Hx) as (j & Hj & <-).
    rewrite length_firstn in Hj. rewrite nth_firstn.
    destruct (Nat.ltb_spec j m); [apply Hlo; lia|lia]. }
  assert (Hs : forall x, In x (skipn m L) -> mSortKey x <> 0).
  { intros x Hx. destruct (In_nth _ _ x Hx) as (j & Hj & <-).
    rewrite length_skipn in Hj. rewrite nth_skipn. apply Hhi. lia. }
  split.
  - rewrite (filter_all _ (firstn m L)), (filter_none _ (skipn m L)), app_nil_r; [reflexivity| |].
    + intros x Hx. apply Nat.eqb_neq, Hs, Hx.
    + intros x Hx. apply Nat.eqb_eq, Hf, Hx.
  - rewrite (filter_none _ (firstn m L)), (filter_all _ (skipn m L)); [reflexivity| |].
    + intros x Hx. apply negb_true_iff, Nat.eqb_neq, Hs, Hx.
    + intros x Hx. rewrite (Hf x Hx). reflexivity.
Qed.


Lemma no_free_shade ev :
  (forall e, In e ev -> isFreeOrShade e = false) -> freedStates ev = [] /\ shadeCalls ev = [].
Proof.
  induction ev as [|e t IH]; intros H; [split; reflexivity|].
  destruct IH as [H1 H2]; [intros x Hx; apply H; right; exact Hx|].
  specialize (H e (or_introl eq_refl)).
  unfold freedStates, shadeCalls in *; simpl. rewrite H1, H2.
  destruct e; simpl in H; try discriminate; split; reflexivity.
Qed.

Section HandlerFacts.
Variable intersectVisibleLight : RayState -> option (Light * nat).
Variable lightEval : Light -> RayState -> Color.
Variable reduceTransparency : Color -> Q.

Lemma missEntry_events fs rsIdx rs e :
  In e (snd (missEntry intersectVisibleLight lightEval reduceTransparency fs rsIdx rs)) ->
  isFreeOrShade e = false.
Proof.
  unfold missEntry.
  destruct (Nat.eqb (rsDepth rs) 0), (intersectVisibleLight rs) as [[l n]|]; simpl;
    repeat match goal with |- context [if ?c then _ else _] => destruct c end; simpl;
    intros H; repeat destruct H as [<-|H]; try reflexivity; tauto.
Qed.

Lemma missEntry_kinds fs rsIdx rs e :
  In e (snd (missEntry intersectVisibleLight lightEval reduceTransparency fs rsIdx rs)) ->
  queuedRadiances [e] = [] /\ visibilityAttempts [e] = [].
Proof.
  unfold missEntry.
  destruct (Nat.eqb (rsDepth rs) 0), (intersectVisibleLight rs) as [[l n]|]; simpl;
    repeat match goal with |- context [if ?c then _ else _] => destruct c end; simpl;
    intros H; repeat destruct H as [<-|H]; try (split; reflexivity); tauto.
Qed.

End HandlerFacts.

Section Core.
Variable intersectionMaterial : RayState -> option Material.
Variable raySwitch : nat -> Material -> Material.
Variable intersectVisibleLight : RayState -> option (Light * nat).
Variable lightEval : Light -> RayState -> Color.
Variable reduceTransparency : Color -> Q.
Hypothesis Hmat : forall rs m, intersectionMaterial rs = Some m ->
                  1 <= getMaterialId (raySwitch (rsLobeType rs) m).

Local Abbreviation entryOf pool := (fun i : nat =>
  let rs := pool i in
  if Z.eqb (rsGeomID rs) (-1) then [mkSortedEntry 0 i None] else
  match intersectionMaterial rs with
  | Some m => let m' := raySwitch (rsLobeType rs) m in [mkSortedEntry (getMaterialId m') i (Some m')]
  | None => []
  end).

Local Abbreviation volumeRadianceOf pool := (fun i : nat =>
  mkBundledRadiance (rsVolRad (pool i))
    (if Nat.eqb (rsDepth (pool i)) 0 then
       Qmult (rsPathPixelWeight (pool i)) (Qminus 1 (reduceTransparency (rsVolTalpha (pool i))))
     else 0%Q) (rsPathPixelWeight (pool i))
    (rsPixel (pool i)) (rsDeepDataHandle (pool i)) (rsCryptomatteDataHandle (pool i))).

Local Abbreviation prePassEvents fs pool := (fun i : nat =>
  if Z.eqb (rsGeomID (pool i)) (-1) then
    (if Nat.eqb (rsDepth (pool i)) 0 && negb (aovSchemaEmpty fs)
     then [EvVisibilityAttempts (rsPixel (pool i)) (totalLightSamples fs)] else [])
  else match intersectionMaterial (pool i) with
       | Some _ => []
       | None => if rsVolHit (pool i)
                 then [EvAddRadianceQueueEntries [volumeRadianceOf pool i]] else []
       end).

Lemma entryOf_nonempty pool l :
  existsb (fun i => Z.eqb (rsGeomID (pool i)) (-1) ||
                    match intersectionMaterial (pool i) with Some _ => true | None => false end) l = true ->
  1 <= length (flat_map (entryOf pool) l).
Proof.
  intros H. apply existsb_exists in H as (i & Hi & Hc).
  assert (He : exists e, In e (flat_map (entryOf pool) l)).
  { cbv beta zeta. destruct (Z.eqb (rsGeomID (pool i)) (-1)) eqn:Eg.
    - exists (mkSortedEntry 0 i None). apply in_flat_map. exists i. rewrite Eg. simpl. auto.
    - destruct (intersectionMaterial (pool i)) as [m|] eqn:Em; [|discriminate].
      eexists. apply in_flat_map. exists i. rewrite Eg, Em. simpl. auto. }
  destruct He as [e He]. destruct (flat_map _ l); [destruct He|simpl; lia].
Qed.

Lemma rayBundleHandler_core fs arenaMem pool rayStates :
  existsb (fun i => Z.eqb (rsGeomID (pool i)) (-1) ||
                    match intersectionMaterial (pool i) with Some _ => true | None => false end)
          rayStates = true ->
  let entries := flat_map (entryOf pool) rayStates in
  let Srt := comparisonSort entries in
  let toFree := filter (fun i => negb (Z.eqb (rsGeomID (pool i)) (-1)) &&
                                 match intersectionMaterial (pool i) with
                                 | Some _ => false | None => true end) rayStates in
  exists m ev1 ev2,
    rayBundleHandler intersectionMaterial raySwitch intersectVisibleLight lightEval
      reduceTransparency fs arenaMem pool rayStates =
      (ev1 ++ ev2 ++ [EvFreeRayStates (toFree ++ map mRsIdx (firstn m Srt))] ++
         fst (dispatchLoop (S (length rayStates)) pool (fun j => nth j Srt (arenaMem j))
                (length entries) m),
       snd (dispatchLoop (S (length rayStates)) pool (fun j => nth j Srt (arenaMem j))
                (length entries) m)) /\
    m <= length Srt /\
    (forall d j, j < m -> mSortKey (nth j Srt d) = 0) /\
    (forall d j, m <= j < length Srt -> mSortKey (nth j Srt d) <> 0) /\
    freedStates ev1 = [] /\ shadeCalls ev1 = [] /\ freedStates ev2 = [] /\ shadeCalls ev2 = [] /\
    ev1 = flat_map (prePassEvents fs pool) rayStates /\
    queuedRadiances ev2 =
      map (fun e => fst (missEntry intersectVisibleLight lightEval reduceTransparency fs
                           (mRsIdx e) (pool (mRsIdx e)))) (firstn m Srt) /\
    visibilityAttempts ev2 = [].
Proof.
  intros Hne entries Srt toFree.
  destruct (buildSortedEntries_eq intersectionMaterial raySwitch reduceTransparency
              fs pool rayStates [] 0 [] []) as [K0 HB].
  pose proof (buildSortedEntries_keys intersectionMaterial raySwitch reduceTransparency
                fs pool rayStates [] 0 [] [] Hmat) as Hk.
  pose proof (buildSortedEntries_shape intersectionMaterial raySwitch reduceTransparency
                fs pool rayStates [] 0 [] []) as Hsh.
  unfold rayBundleHandler.
  destruct (buildSortedEntries intersectionMaterial raySwitch reduceTransparency fs pool
              rayStates ([], 0, [], [])) as [[[E K] T] ev1].
  injection HB as _ _ _ HB. rewrite ?app_nil_l in HB.
  destruct Hsh as (HE & HT & HF1 & HS1). rewrite app_nil_l in HE, HT.
  assert (Hinv : forall e, In e E -> mSortKey e <= K) by (intros e He; apply Hk; [intros ? []|exact He]).
  assert (Hall : Forall (fun e => mSortKey e <= K) E) by (apply Forall_forall; exact Hinv).
  cbv beta iota.
  rewrite (smartSort32_comparisonSort _ _ _ Hall).
  subst E T. fold entries. fold Srt. fold toFree.
  simpl in HF1, HS1.
  assert (Hlen : length Srt = length entries) by (symmetry; apply Permutation_length, comparisonSort_perm).
  assert (HN1 : 1 <= length entries) by (apply entryOf_nonempty; exact Hne).
  assert (HNr : length entries <= length rayStates) by apply entryOf_length.
  assert (Hsrt : forall d i j, i <= j < length Srt -> mSortKey (nth i Srt d) <= mSortKey (nth j Srt d))
    by (intros d i j Hij; apply sorted_nth_le; [apply comparisonSort_sorted|exact Hij]).
  assert (Hnd : forall d j, j < length Srt -> nth j Srt d = nth j Srt (arenaMem j))
    by (intros d j Hj; apply nth_indep; exact Hj).
  destruct (Nat.eqb_spec (mSortKey (nth 0 Srt (arenaMem 0))) 0) as [H0|H0].
  - destruct (spanEndScan_spec (S (length rayStates)) (fun j => nth j Srt (arenaMem j))
                (length entries) 1 0) as (q & Eq & Hq & Hin & Hout); try lia.
    rewrite Eq.
    assert (Hm : map fst (map (fun j => (mRsIdx (nth j Srt (arenaMem j)),
                   missEntry intersectVisibleLight lightEval reduceTransparency fs
                     (mRsIdx (nth j Srt (arenaMem j))) (pool (mRsIdx (nth j Srt (arenaMem j))))))
                   (seq 0 q)) = map mRsIdx (firstn q Srt)).
    { rewrite map_map. simpl. apply (map_nth_seq mRsIdx Srt arenaMem 0 q). lia. }
    rewrite Hm.
    eexists q, ev1, _. split.
    { destruct (dispatchLoop _ _ _ _ _) as [ev3 ok]. reflexivity. }
    split; [lia|]. split; [|split; [|split; [|split; [|split]]]].
    + intros d j Hj. rewrite Hnd by lia.
      destruct j as [|j]; [exact H0|]. apply (Hin (S j)). lia.
    + intros d j Hj.
      assert (Hqn : q < length entries) by lia. specialize (Hout Hqn). cbv beta in Hout.
      pose proof (Hsrt d q j ltac:(lia)) as Hs. rewrite (Hnd d q) in Hs by lia. lia.
    + exact HF1.
    + exact HS1.
    + apply no_free_shade. intros e He. apply in_app_or in He as [He|[<-|[]]]; [|reflexivity].
      apply in_flat_map in He as (p & Hp & He). apply in_map_iff in Hp as (j & <- & _).
      simpl in He. revert He. apply missEntry_events.
    + split; [|split; [exact HB|split]].
      * apply no_free_shade. intros e He. apply in_app_or in He as [He|[<-|[]]]; [|reflexivity].
        apply in_flat_map in He as (p & Hp & He). apply in_map_iff in Hp as (j & <- & _).
        simpl in He. revert He. apply missEntry_events.
      * rewrite queuedRadiances_app, queuedRadiances_nil.
        -- simpl. rewrite app_nil_r, !map_map. simpl.
           apply (map_nth_seq (fun e => fst (missEntry intersectVisibleLight lightEval
                                 reduceTransparency fs (mRsIdx e) (pool (mRsIdx e))))
                    Srt arenaMem 0 q). lia.
        -- intros e He. apply in_flat_map in He as (p & Hp & He).
           apply in_map_iff in Hp as (j & <- & _). simpl in He.
           apply (missEntry_kinds _ _ _ _ _ _ _ He).
      * rewrite visibilityAttempts_app, visibilityAttempts_nil; [reflexivity|].
        intros e He. apply in_flat_map in He as (p & Hp & He).
        apply in_map_iff in Hp as (j & <- & _). simpl in He.
        apply (missEntry_kinds _ _ _ _ _ _ _ He).
  - exists 0, ev1, []. split.
    { destruct (dispatchLoop _ _ _ _ _) as [ev3 ok]. reflexivity. }
    split; [lia|]. split; [intros; lia|]. split; [|repeat split; try assumption].
    intros d j Hj.
    pose proof (Hsrt d 0 j ltac:(lia)) as Hs. rewrite (Hnd d 0) in Hs by lia. lia.
Qed.

Lemma forwardedStates_app a b : forwardedStates (a ++ b) = forwardedStates a ++ forwardedStates b.
Proof. unfold forwardedStates. rewrite shadeCalls_app. apply flat_map_app. Qed.

(** X2: when no cancellation check fires (the model leaves out the
    CHECK_CANCELLATION early returns), on a batch with at least one miss
    or one hit with a material (material ids at least 1), the handler runs to its end, the ray
    states it frees are, as a multiset, exactly the misses and the hits
    without material, and those it forwards to shade queues are exactly
    the hits with a material. *)
Theorem rayBundleHandler_frees_or_forwards_each_ray fs arenaMem pool rayStates :
  existsb (fun i => Z.eqb (rsGeomID (pool i)) (-1) ||
                    match intersectionMaterial (pool i) with Some _ => true | None => false end)
          rayStates = true ->
  let '(ev, ok) := rayBundleHandler intersectionMaterial raySwitch intersectVisibleLight
                     lightEval reduceTransparency fs arenaMem pool rayStates in
  ok = true /\
  Permutation (freedStates ev)
    (filter (fun i => Z.eqb (rsGeomID (pool i)) (-1) ||
                      match intersectionMaterial (pool i) with Some _ => false | None => true end)
            rayStates) /\
  Permutation (forwardedStates ev)
    (filter (fun i => negb (Z.eqb (rsGeomID (pool i)) (-1)) &&
                      match intersectionMaterial (pool i) with Some _ => true | None => false end)
            rayStates).
Proof.
  intros Hne.
  destruct (rayBundleHandler_core fs arenaMem pool rayStates Hne)
    as (m & ev1 & ev2 & Eq & Hm & Hlo & Hhi & F1 & S1 & F2 & S2 & _).
  rewrite Eq.
  assert (Hlen : length (comparisonSort (flat_map (entryOf pool) rayStates)) =
                 length (flat_map (entryOf pool) rayStates))
    by (symmetry; apply Permutation_length, comparisonSort_perm).
  assert (HNr : length (flat_map (entryOf pool) rayStates) <= length rayStates)
    by apply entryOf_length.
  pose proof (comparisonSort_perm (flat_map (entryOf pool) rayStates)) as Hperm.
  set (entries := flat_map (entryOf pool) rayStates) in *.
  set (Srt := comparisonSort entries) in *.
  assert (Hsorted : forall i j, i <= j < length entries ->
            mSortKey ((fun j => nth j Srt (arenaMem j)) i) <=
            mSortKey ((fun j => nth j Srt (arenaMem j)) j)).
  { intros i j Hij. simpl. rewrite (nth_indep Srt (arenaMem i) (arenaMem j)) by lia.
    apply sorted_nth_le; [apply comparisonSort_sorted|lia]. }
  pose proof (dispatchLoop_spec pool (fun j => nth j Srt (arenaMem j)) (length entries) Hsorted
                (S (length rayStates)) m ltac:(lia) ltac:(lia)) as D.
  destruct (dispatchLoop _ _ _ _ _) as [ev3 ok]. simpl fst. simpl snd.
  destruct D as (Hok & F3 & Fw3 & _).
  destruct (split_at_misses Srt m Hm Hlo Hhi) as [Hf Hs].
  split; [exact Hok|]. split.
  - rewrite !freedStates_app, F1, F2, F3. simpl. rewrite !app_nil_r, Hf.
    eapply perm_trans.
    { apply Permutation_app_head. apply Permutation_map.
      apply Permutation_filter. apply Permutation_sym. exact Hperm. }
    unfold entries. rewrite (entryOf_misses intersectionMaterial raySwitch Hmat).
    eapply perm_trans; [apply filter_disjoint_app|].
    + intros i Hi. apply andb_true_iff in Hi as [Hi _]. apply negb_true_iff in Hi. exact Hi.
    + apply Permutation_refl'. apply filter_ext. intros i.
      destruct (Z.eqb _ _), (intersectionMaterial (pool i)); reflexivity.
  - rewrite !forwardedStates_app.
    assert (E1 : forwardedStates ev1 = []) by (unfold forwardedStates; rewrite S1; reflexivity).
    assert (E2 : forwardedStates ev2 = []) by (unfold forwardedStates; rewrite S2; reflexivity).
    rewrite E1, E2, Fw3. simpl.
    rewrite (map_nth_seq mRsIdx Srt arenaMem m (length entries - m)) by lia.
    rewrite firstn_all2 by (rewrite length_skipn; lia).
    rewrite Hs.
    eapply perm_trans.
    { apply Permutation_map. apply Permutation_filter. apply Permutation_sym. exact Hperm. }
    unfold entries. rewrite (entryOf_hits intersectionMaterial raySwitch Hmat). reflexivity.
Qed.

Lemma Forall2_calls {A B C} (R : A -> B -> Prop) (P : B -> Prop) (f : B -> C) (g : A -> C) js cs :
  Forall2 R js cs ->
  (forall j c, In j js -> R j c -> P c /\ f c = g j) ->
  Forall P cs /\ map f cs = map g js.
Proof.
  induction 1 as [|j c js cs Hr Hrest IH]; intros H; [split; [constructor|reflexivity]|].
  destruct (H j c (or_introl eq_refl) Hr) as [Hp Hf].
  destruct IH as [IH1 IH2]; [intros j' c' Hj' Hr'; apply H; [right; exact Hj'|exact Hr']|].
  split; [constructor; assumption|simpl; f_equal; assumption].
Qed.

Local Abbreviation callOk pool := (fun c : option Material * list (nat * Z) => snd c <> [] /\
     exists mt, fst c = Some mt /\
       Forall (fun x => rsGeomID (pool (fst x)) <> (-1)%Z /\
                        snd x = shadeSortKey (pool (fst x)) /\
                        exists m0, intersectionMaterial (pool (fst x)) = Some m0 /\
                          getMaterialId (raySwitch (rsLobeType (pool (fst x))) m0) =
                          getMaterialId mt)
              (snd c)).

(** X3: on such a batch every shade-queue call is non-empty and carries a
    material; each ray state it forwards is a hit whose (ray-switched)
    material has that material's id, paired with the ray's shade sort
    key; and the calls come in strictly increasing material id, so no
    two calls share a material id. *)
Theorem rayBundleHandler_shade_calls_by_material fs arenaMem pool rayStates :
  existsb (fun i => Z.eqb (rsGeomID (pool i)) (-1) ||
                    match intersectionMaterial (pool i) with Some _ => true | None => false end)
          rayStates = true ->
  let ev := fst (rayBundleHandler intersectionMaterial raySwitch intersectVisibleLight
                   lightEval reduceTransparency fs arenaMem pool rayStates) in
  Forall (fun c => snd c <> [] /\
     exists mt, fst c = Some mt /\
       Forall (fun x => rsGeomID (pool (fst x)) <> (-1)%Z /\
                        snd x = shadeSortKey (pool (fst x)) /\
                        exists m0, intersectionMaterial (pool (fst x)) = Some m0 /\
                          getMaterialId (raySwitch (rsLobeType (pool (fst x))) m0) =
                          getMaterialId mt)
              (snd c))
    (shadeCalls ev) /\
  StronglySorted lt
    (map (fun c => match fst c with Some mt => getMaterialId mt | None => 0 end) (shadeCalls ev)).
Proof.
  intros Hne ev.
  destruct (rayBundleHandler_core fs arenaMem pool rayStates Hne)
    as (m & ev1 & ev2 & Eq & Hm & Hlo & Hhi & F1 & S1 & F2 & S2 & _).
  unfold ev. rewrite Eq. cbn [fst]. clear ev.
  assert (Hlen : length (comparisonSort (flat_map (entryOf pool) rayStates)) =
                 length (flat_map (entryOf pool) rayStates))
    by (symmetry; apply Permutation_length, comparisonSort_perm).
  assert (HNr : length (flat_map (entryOf pool) rayStates) <= length rayStates)
    by apply entryOf_length.
  pose proof (comparisonSort_perm (flat_map (entryOf pool) rayStates)) as Hperm.
  set (entries := flat_map (entryOf pool) rayStates) in *.
  set (Srt := comparisonSort entries) in *.
  assert (Hsorted : forall i j, i <= j < length entries ->
            mSortKey ((fun j => nth j Srt (arenaMem j)) i) <=
            mSortKey ((fun j => nth j Srt (arenaMem j)) j)).
  { intros i j Hij. simpl. rewrite (nth_indep Srt (arenaMem i) (arenaMem j)) by lia.
    apply sorted_nth_le; [apply comparisonSort_sorted|lia]. }
  pose proof (dispatchLoop_spec pool (fun j => nth j Srt (arenaMem j)) (length entries) Hsorted
                (S (length rayStates)) m ltac:(lia) ltac:(lia)) as D.
  destruct (dispatchLoop _ _ _ _ _) as [ev3 ok]. simpl fst.
  destruct D as (_ & _ & _ & js & Hjs & Hb & Hss).
  rewrite !shadeCalls_app, S1, S2. simpl.
  (* every slot a call starts from, or forwards, is a hit with a material *)
  assert (Hslot : forall j, m <= j < length entries ->
    exists m0, rsGeomID (pool (mRsIdx (nth j Srt (arenaMem j)))) <> (-1)%Z /\
      intersectionMaterial (pool (mRsIdx (nth j Srt (arenaMem j)))) = Some m0 /\
      mMaterial (nth j Srt (arenaMem j)) =
        Some (raySwitch (rsLobeType (pool (mRsIdx (nth j Srt (arenaMem j))))) m0) /\
      mSortKey (nth j Srt (arenaMem j)) =
        getMaterialId (raySwitch (rsLobeType (pool (mRsIdx (nth j Srt (arenaMem j))))) m0)).
  { intros j Hj.
    assert (Hin : In (nth j Srt (arenaMem j)) entries).
    { apply (Permutation_in _ (Permutation_sym Hperm)). apply nth_In. lia. }
    destruct (entryOf_cases intersectionMaterial raySwitch pool rayStates _ Hin)
      as [_ [(Hk & _ & _)|(m0 & H1 & H2 & H3 & H4)]].
    - exfalso. apply (Hhi (arenaMem j) j); [lia|exact Hk].
    - exists m0. auto. }
  rewrite ?app_nil_r.
  assert (Hpre : forall j c, In j js ->
            shadeCallFrom pool (fun j => nth j Srt (arenaMem j)) (length entries) j c ->
            callOk pool c /\
            (fun c => match fst c with Some mt => getMaterialId mt | None => 0 end) c =
            (fun j => mSortKey (nth j Srt (arenaMem j))) j).
  2: { destruct (Forall2_calls _ (callOk pool)
              (fun c => match fst c with Some mt => getMaterialId mt | None => 0 end)
              (fun j => mSortKey (nth j Srt (arenaMem j))) js (shadeCalls ev3) Hjs Hpre)
         as [Hc Hmap].
       split; [exact Hc|]. rewrite Hmap. exact Hss. }
  intros j c Hj (Hf & Hne' & Hx).
  rewrite Forall_forall in Hb. specialize (Hb j Hj).
  destruct (Hslot j ltac:(lia)) as (m0 & _ & _ & Hmj & Hkj).
  simpl in Hf. rewrite Hmj in Hf. rewrite Hf.
  split; [|simpl; symmetry; exact Hkj].
  split; [exact Hne'|]. eexists; split; [reflexivity|].
  eapply Forall_impl; [|exact Hx]. simpl.
  intros x (j' & Hj' & Hkey & ->). simpl.
  destruct (Hslot j' ltac:(lia)) as (m1 & G1 & G2 & _ & G4).
  split; [exact G1|]. split; [reflexivity|]. exists m1. split; [exact G2|].
  rewrite <- G4, Hkey, Hkj. reflexivity.
Qed.

(** X4: when no cancellation check fires, on such a batch the radiances
    the handler queues are, as a
    multiset, one volume radiance per hit without material that
    traversed a volume (alpha [pathPixelWeight * (1 - reduced volume
    alpha)] at depth 0, 0 otherwise) and the miss radiance of every miss;
    nothing else is queued. *)
Theorem rayBundleHandler_queued_radiances fs arenaMem pool rayStates :
  existsb (fun i => Z.eqb (rsGeomID (pool i)) (-1) ||
                    match intersectionMaterial (pool i) with Some _ => true | None => false end)
          rayStates = true ->
  Permutation
    (queuedRadiances (fst (rayBundleHandler intersectionMaterial raySwitch intersectVisibleLight
                             lightEval reduceTransparency fs arenaMem pool rayStates)))
    (map (volumeRadianceOf pool)
       (filter (fun i => negb (Z.eqb (rsGeomID (pool i)) (-1)) &&
                         match intersectionMaterial (pool i) with
                         | Some _ => false | None => true end && rsVolHit (pool i)) rayStates) ++
     map (fun i => fst (missEntry intersectVisibleLight lightEval reduceTransparency fs i (pool i)))
       (filter (fun i => Z.eqb (rsGeomID (pool i)) (-1)) rayStates)).
Proof.
  intros Hne.
  destruct (rayBundleHandler_core fs arenaMem pool rayStates Hne)
    as (m & ev1 & ev2 & Eq & Hm & Hlo & Hhi & _ & _ & _ & _ & E1 & Q2 & _).
  rewrite Eq. cbn [fst].
  destruct (prePassEvents_calls intersectionMaterial reduceTransparency fs pool rayStates)
    as (_ & _ & Q1 & _).
  rewrite !queuedRadiances_app, E1, Q1, Q2.
  rewrite (queuedRadiances_nil (fst (dispatchLoop _ _ _ _ _))).
  2: { intros e He. destruct (dispatchLoop_events _ _ _ _ _ _ He) as (m' & l & ->). reflexivity. }
  change (queuedRadiances [EvFreeRayStates _]) with (@nil BundledRadiance).
  rewrite !app_nil_l, !app_nil_r. apply Permutation_app_head.
  destruct (split_at_misses _ m Hm Hlo Hhi) as [-> _].
  rewrite <- (entryOf_misses intersectionMaterial raySwitch Hmat pool rayStates), map_map.
  apply Permutation_map, Permutation_filter, Permutation_sym, comparisonSort_perm.
Qed.
End Core.

Section VisibilityFacts.
Variable intersectionMaterial : RayState -> option Material.
Variable raySwitch : nat -> Material -> Material.
Variable intersectVisibleLight : RayState -> option (Light * nat).
Variable lightEval : Light -> RayState -> Color.
Variable reduceTransparency : Color -> Q.

(** X5: when no cancellation check fires, for every batch the handler
    records one visibility attempt of
    [totalLightSamples] for the pixel of each primary (depth 0) miss, in
    batch order, when the AOV schema is not empty, and none otherwise. *)
Theorem rayBundleHandler_visibility_attempts fs arenaMem pool rayStates :
  visibilityAttempts (fst (rayBundleHandler intersectionMaterial raySwitch intersectVisibleLight
                             lightEval reduceTransparency fs arenaMem pool rayStates)) =
  if aovSchemaEmpty fs then [] else
    map (fun i => (rsPixel (pool i), totalLightSamples fs))
      (filter (fun i => Z.eqb (rsGeomID (pool i)) (-1) && Nat.eqb (rsDepth (pool i)) 0)
         rayStates).
Proof.
  unfold rayBundleHandler.
  destruct (buildSortedEntries_eq intersectionMaterial raySwitch reduceTransparency
              fs pool rayStates [] 0 [] []) as [K ->].
  destruct (prePassEvents_calls intersectionMaterial reduceTransparency fs pool rayStates) as (_ & _ & _ & HV).
  cbv beta iota zeta.
  set (ev1 := flat_map _ rayStates) in *.
  set (Srt := smartSort32 _ _ _).
  set (fm := fun j => nth j Srt (arenaMem j)).
  assert (Hd : forall fuel mem N cur,
             visibilityAttempts (fst (dispatchLoop fuel pool mem N cur)) = []).
  { intros. apply visibilityAttempts_nil. intros e He.
    destruct (dispatchLoop_events _ _ _ _ _ _ He) as (m & l & ->). reflexivity. }
  match goal with |- context [if ?c then _ else _] => destruct c end.
  - match goal with |- context [spanEndScan ?a ?b ?c ?d ?e] =>
      destruct (spanEndScan a b c d e) as [q|] end;
      [|simpl; rewrite ?app_nil_l; exact HV].
    match goal with |- context [dispatchLoop ?a ?b ?c ?d ?e] =>
      pose proof (Hd a c d e); destruct (dispatchLoop a b c d e) as [ev3 ok] end.
    cbn [fst] in *.
    rewrite !visibilityAttempts_app, HV, H.
    rewrite (visibilityAttempts_nil (flat_map _ _)).
    + simpl. rewrite !app_nil_r. reflexivity.
    + intros e He. apply in_flat_map in He as (p & Hp & He).
      apply in_map_iff in Hp as (j & <- & _). simpl in He.
      apply (missEntry_kinds _ _ _ _ _ _ _ He).
  - match goal with |- context [dispatchLoop ?a ?b ?c ?d ?e] =>
      pose proof (Hd a c d e); destruct (dispatchLoop a b c d e) as [ev3 ok] end.
    cbn [fst] in *.
    rewrite !visibilityAttempts_app, HV, H. simpl. rewrite !app_nil_r. reflexivity.
Qed.

End VisibilityFacts.

(** ** The occlusion resolvers and their handlers: batch-level facts *)

Lemma occlusionTests_app a b : occlusionTests (a ++ b) = occlusionTests a ++ occlusionTests b.
Proof. apply flat_map_app. Qed.

Lemma occlusionTests_nil ev : (forall x, ~ In (EvOccluded x) ev) -> occlusionTests ev = [].
Proof.
  induction ev as [|e t IH]; intros H; [reflexivity|].
  change (e :: t) with ([e] ++ t). rewrite occlusionTests_app, IH.
  - destruct e; try reflexivity. exfalso. apply (H r). left. reflexivity.
  - intros x Hx. apply (H x). right. exact Hx.
Qed.

Lemma find_app {A} (f : A -> bool) l1 l2 :
  find f (l1 ++ l2) = match find f l1 with Some x => Some x | None => find f l2 end.
Proof. induction l1 as [|x t IH]; simpl; [reflexivity|]. destruct (f x); [reflexivity|exact IH]. Qed.

Lemma find_none_all {A} (f : A -> bool) l : (forall x, In x l -> f x = false) -> find f l = None.
Proof.
  induction l as [|x t IH]; intros H; simpl; [reflexivity|].
  rewrite (H x (or_introl eq_refl)). apply IH. intros y Hy. apply H. right. exact Hy.
Qed.

Lemma readResult_cons p t j :
  readResult (p :: t) j =
  match find (fun q => Nat.eqb (fst q) j) (rev t) with
  | Some q => Some (snd q)
  | None => if Nat.eqb (fst p) j then Some (snd p) else None
  end.
Proof.
  unfold readResult. simpl. rewrite find_app.
  destruct (find _ (rev t)); [reflexivity|]. simpl. destruct (Nat.eqb (fst p) j); reflexivity.
Qed.

(** Slots written once each, at [k, k+1, ...], read back in order. *)
Lemma readResult_seq w k :
  map fst w = seq k (length w) ->
  map (readResult w) (seq k (length w)) = map (fun p => Some (snd p)) w.
Proof.
  revert k; induction w as [|p t IH]; intros k Hw; simpl; [reflexivity|].
  simpl in Hw. injection Hw as Hp Ht.
  rewrite readResult_cons, find_none_all, Hp, Nat.eqb_refl.
  - f_equal. rewrite <- (IH (S k) Ht). apply map_ext_in. intros j Hj.
    apply in_seq in Hj. rewrite readResult_cons. unfold readResult.
    destruct (find _ (rev t)); [reflexivity|].
    rewrite Hp. destruct (Nat.eqb_spec k j); [lia|]. reflexivity.
  - intros q Hq. apply in_rev in Hq. apply Nat.eqb_neq.
    assert (Hin : In (fst q) (seq (S k) (length t))) by (rewrite <- Ht; apply in_map, Hq).
    apply in_seq in Hin. lia.
Qed.

Lemma bundleHandlerOutput_queue N res :
  fillsWithin N res ->
  snd (bundleHandlerOutput N res) = map (fun p => Some (snd p)) (snd (fst res)).
Proof.
  destruct res as [[n w] e]. simpl. intros [_ Hw].
  assert (Hl : length w = n) by (rewrite <- (length_map fst w), Hw; apply length_seq).
  subst n. apply readResult_seq, Hw.
Qed.

Lemma indexFrom_snd {X} k (l : list X) : map snd (indexFrom k l) = l.
Proof.
  unfold indexFrom. revert k; induction l as [|x t IH]; intros k; simpl; [reflexivity|].
  f_equal. apply IH.
Qed.

Lemma indexFrom_cons {X} k (x : X) l : indexFrom k (x :: l) = (k, x) :: indexFrom (S k) l.
Proof. reflexivity. Qed.

Lemma flat_map_ext_in {A B} (f g : A -> list B) l :
  (forall x, In x l -> f x = g x) -> flat_map f l = flat_map g l.
Proof.
  induction l as [|x t IH]; intros H; simpl; [reflexivity|].
  rewrite (H x (or_introl eq_refl)), IH; [reflexivity|]. intros y Hy. apply H. right. exact Hy.
Qed.

Lemma partition_classes entries :
  let '(a, m) := std_partition isStandard entries in
  Permutation entries a /\ m <= length a /\
  (forall x, In x (firstn m a) -> isStandard x = true) /\
  (forall x, In x (skipn m a) -> isStandard x = false).
Proof.
  destruct (std_partition_spec isStandard entries) as (P1 & P2 & P3).
  destruct (std_partition isStandard entries) as [a m]. simpl in *.
  split; [exact P1|]. split; [rewrite <- (Permutation_length P1); exact P2|]. split.
  - intros x Hx. apply In_nth_error in Hx as (i & Hi).
    rewrite nth_error_firstn in Hi. destruct (Nat.ltb_spec i m); [|discriminate].
    apply (P3 i x Hi). assumption.
  - intros x Hx. apply In_nth_error in Hx as (i & Hi).
    rewrite nth_error_skipn in Hi. destruct (isStandard x) eqn:Hs; [|reflexivity].
    apply (P3 _ x Hi) in Hs. lia.
Qed.

Lemma filter_true_length {A} (p : A -> bool) l :
  (forall x, In x l -> p x = true) -> length (filter p l) = length l.
Proof. intros H. rewrite filter_all; [reflexivity|exact H]. Qed.

Lemma length_filter_app {A} (p : A -> bool) l1 l2 :
  length (filter p (l1 ++ l2)) = length (filter p l1) + length (filter p l2).
Proof. rewrite filter_app, length_app. reflexivity. Qed.

Lemma Permutation_filter_length {A} (p : A -> bool) l l' :
  Permutation l l' -> length (filter p l) = length (filter p l').
Proof. intros H. apply Permutation_length, Permutation_filter, H. Qed.

Section OcclusionExtra.
Variable getTransmittance : BundledOcclRay -> Color.
Variable reduceTransparency : Color -> Q.
Variable listLight : Handle -> Light.
Variable accelOccluded : BundledOcclRay -> bool.
Variable accumulateRayPresence : Light -> BundledOcclRay -> Q.
Variable isEqual : Q -> Q -> bool.

Local Abbreviation cpuBody :=
  (areSingleRaysOccluded_body getTransmittance reduceTransparency listLight).
Local Abbreviation cpuLoop :=
  (areSingleRaysOccluded_loop getTransmittance reduceTransparency listLight accelOccluded).
Local Abbreviation gpuBody :=
  (computeXPUOcclusionQueriesOnGPU_body getTransmittance reduceTransparency listLight).
Local Abbreviation gpuLoop :=
  (computeXPUOcclusionQueriesOnGPU_loop getTransmittance reduceTransparency listLight).
Local Abbreviation forceBody := (forceSingleRaysUnoccluded_body getTransmittance).
Local Abbreviation forceLoop := (forceSingleRaysUnoccluded_loop getTransmittance).
Local Abbreviation computeOcclusion :=
  (computeOcclusionQueriesBundled getTransmittance reduceTransparency listLight accelOccluded).
Local Abbreviation computePresence :=
  (computePresenceShadowsQueriesBundled getTransmittance reduceTransparency listLight
     accumulateRayPresence isEqual).
Local Abbreviation computeGPU :=
  (computeXPUOcclusionQueriesOnGPU getTransmittance reduceTransparency listLight).

(** Whether the loop body of a resolver fills a slot for [r], given the
    occlusion answer [occ] (lines 103-131 of RayHandlers.cc, 106-168 of
    XPURayHandlers.cc). *)
Local Abbreviation emits fs occ r :=
  (negb (isStandard r) || negb occ || negb (getEnableShadowing fs) ||
   (negb (Nat.eqb (mDataPtrHandle r) nullHandle) &&
    negb (Qeq_bool (getClearRadiusFalloffDistance (listLight (mDataPtrHandle r))) 0%Q) &&
    Qlt_bool (mMaxT r) (Qplus (getClearRadius (listLight (mDataPtrHandle r)))
                              (getClearRadiusFalloffDistance (listLight (mDataPtrHandle r)))))).

Lemma cpuBody_length fs b r :
  isStandard r = true -> length (fst (cpuBody fs b r)) = if emits fs b r then 1 else 0.
Proof.
  intros Hs. rewrite Hs. unfold areSingleRaysOccluded_body. simpl.
  destruct b, (getEnableShadowing fs), (Nat.eqb (mDataPtrHandle r) nullHandle),
    (Qeq_bool _ 0), (Qlt_bool _ _); reflexivity.
Qed.

Lemma gpuBody_vals fs occ i r :
  fst (gpuBody fs occ i r) =
  if isStandard r then fst (cpuBody fs (occ i) r) else [fst (forceBody r)].
Proof.
  unfold computeXPUOcclusionQueriesOnGPU_body, areSingleRaysOccluded_body,
    forceSingleRaysUnoccluded_body, isStandard.
  destruct (mOcclTestType r); simpl; [|reflexivity].
  destruct (occ i), (getEnableShadowing fs), (Nat.eqb (mDataPtrHandle r) nullHandle),
    (Qeq_bool _ 0), (Qlt_bool _ _); reflexivity.
Qed.

Lemma cpuLoop_vals fs k l :
  map snd (snd (fst (cpuLoop fs k l))) =
  flat_map (fun r => fst (cpuBody fs (accelOccluded r) r)) l.
Proof.
  revert k; induction l as [|r rest IH]; intros k; simpl; [reflexivity|].
  destruct (cpuBody fs (accelOccluded r) r) as [filled ev].
  specialize (IH (k + length filled)).
  destruct (cpuLoop fs (k + length filled) rest) as [[n w] e]. simpl in *.
  rewrite map_app, indexFrom_snd, IH. reflexivity.
Qed.

Lemma forceLoop_vals i l : map snd (fst (forceLoop i l)) = map (fun r => fst (forceBody r)) l.
Proof.
  revert i; induction l as [|r rest IH]; intros i; simpl; [reflexivity|].
  destruct (forceBody r) as [rad ev]. specialize (IH (S i)).
  destruct (forceLoop (S i) rest) as [w e]. simpl in *. rewrite IH. reflexivity.
Qed.

Lemma gpuLoop_vals fs occ i k rays :
  map snd (snd (fst (gpuLoop fs occ i k rays))) =
  flat_map (fun p => fst (gpuBody fs occ (fst p) (snd p))) (indexFrom i rays).
Proof.
  revert i k; induction rays as [|r rest IH]; intros i k; [reflexivity|].
  cbn [computeXPUOcclusionQueriesOnGPU_loop]. rewrite indexFrom_cons. cbn [flat_map fst snd].
  destruct (gpuBody fs occ i r) as [filled ev] eqn:Eb.
  specialize (IH (S i) (k + length filled)).
  destruct (gpuLoop fs occ (S i) (k + length filled) rest) as [[n w] e]. simpl in *.
  rewrite map_app, indexFrom_snd, IH. reflexivity.
Qed.

Lemma cpuLoop_count fs k l :
  Forall (fun r => isStandard r = true) l ->
  fst (fst (cpuLoop fs k l)) = k + length (filter (fun r => emits fs (accelOccluded r) r) l).
Proof.
  revert k; induction l as [|r rest IH]; intros k Hs; simpl; [lia|].
  inversion Hs as [|? ? Hr Hrest]; subst.
  pose proof (cpuBody_length fs (accelOccluded r) r Hr) as Hl.
  destruct (cpuBody fs (accelOccluded r) r) as [filled ev]. simpl in Hl.
  specialize (IH (k + length filled) Hrest).
  destruct (cpuLoop fs (k + length filled) rest) as [[n w] e]. simpl in *.
  rewrite IH, Hl. destruct (emits fs (accelOccluded r) r); simpl; lia.
Qed.

Lemma gpuLoop_count fs occ i k rays :
  fst (fst (gpuLoop fs occ i k rays)) =
  k + length (filter (fun p => emits fs (occ (fst p)) (snd p)) (indexFrom i rays)).
Proof.
  revert i k; induction rays as [|r rest IH]; intros i k; [simpl; lia|].
  cbn [computeXPUOcclusionQueriesOnGPU_loop]. rewrite indexFrom_cons.
  pose proof (gpuBody_vals fs occ i r) as Hv.
  destruct (gpuBody fs occ i r) as [filled ev]. simpl in Hv.
  specialize (IH (S i) (k + length filled)).
  destruct (gpuLoop fs occ (S i) (k + length filled) rest) as [[n w] e]. simpl in *.
  rewrite IH, Hv. cbn [filter fst snd].
  destruct (isStandard r) eqn:Hs.
  - rewrite (cpuBody_length fs (occ i) r Hs). rewrite Hs.
    cbn [negb orb]. match goal with |- context [if ?c then _ else _] => destruct c end; simpl; lia.
  - simpl. lia.
Qed.

(** Values a ray contributes, in order. *)
Local Abbreviation rayVals fs r :=
  (if isStandard r then fst (cpuBody fs (accelOccluded r) r) else [fst (forceBody r)]).

Lemma gpu_flat_vals fs occ k l :
  (forall i r, nth_error l i = Some r -> occ (k + i) = accelOccluded r) ->
  flat_map (fun p => fst (gpuBody fs occ (fst p) (snd p))) (indexFrom k l) =
  flat_map (fun r => rayVals fs r) l.
Proof.
  revert k; induction l as [|r rest IH]; intros k H; [reflexivity|].
  rewrite indexFrom_cons. cbn [flat_map fst snd].
  rewrite gpuBody_vals. f_equal.
  - rewrite <- (H 0 r eq_refl), Nat.add_0_r. reflexivity.
  - apply IH. intros i x Hx. rewrite <- (H (S i) x Hx). f_equal. lia.
Qed.

Lemma computeOcclusion_vals fs entries :
  map snd (snd (fst (snd (computeOcclusion fs entries)))) =
  flat_map (fun r => rayVals fs r) (fst (std_partition isStandard entries)).
Proof.
  unfold computeOcclusionQueriesBundled.
  pose proof (partition_classes entries) as Hc.
  destruct (std_partition isStandard entries) as [a m]. simpl fst.
  destruct Hc as (_ & Hm & Hs & Hn).
  transitivity (flat_map (fun r => rayVals fs r) (firstn m a ++ skipn m a));
    [|rewrite firstn_skipn; reflexivity].
  rewrite flat_map_app.
  assert (E1 : map snd (snd (fst (if Nat.eqb m 0 then (0, [], [])
                 else areSingleRaysOccluded getTransmittance reduceTransparency listLight
                        accelOccluded fs (firstn m a)))) =
               flat_map (fun r => rayVals fs r) (firstn m a)).
  { destruct (Nat.eqb_spec m 0) as [->|_]; [reflexivity|].
    unfold areSingleRaysOccluded. rewrite cpuLoop_vals.
    apply flat_map_ext_in. intros r Hr. rewrite (Hs r Hr). reflexivity. }
  destruct (if Nat.eqb m 0 then (0, [], [])
            else areSingleRaysOccluded getTransmittance reduceTransparency listLight
                   accelOccluded fs (firstn m a)) as [[t w1] e1].
  simpl in E1.
  assert (E2 : flat_map (fun r => rayVals fs r) (skipn m a) =
               map (fun r => fst (forceBody r)) (skipn m a)).
  { clear E1. induction (skipn m a) as [|r rest IH]; [reflexivity|].
    simpl. rewrite (Hn r (or_introl eq_refl)). simpl. f_equal.
    apply IH. intros x Hx. apply Hn. right. exact Hx. }
  destruct (Nat.eqb_spec (length a - m) 0) as [Hz|Hnz].
  - simpl. rewrite app_nil_r, E1.
    assert (Hsk : skipn m a = []) by (apply length_zero_iff_nil; rewrite length_skipn; lia).
    rewrite Hsk. simpl. rewrite app_nil_r. reflexivity.
  - unfold forceSingleRaysUnoccluded.
    pose proof (forceLoop_vals 0 (skipn m a)) as Hf.
    destruct (forceLoop 0 (skipn m a)) as [w e]. simpl in *.
    rewrite map_app, E1, E2. f_equal. unfold shiftWrites. rewrite map_map. exact Hf.
Qed.

Lemma fills_length N (res : nat * list (nat * BundledRadiance) * list OcclEvent) :
  fillsWithin N res -> length (snd (fst res)) = fst (fst res).
Proof.
  destruct res as [[n w] e]. simpl. intros [_ Hw].
  rewrite <- (length_map fst w), Hw. apply length_seq.
Qed.

(** X6: occlusionQueryBundleHandler, presenceShadowsQueryBundleHandler
    and xpuOcclusionQueryBundleHandler queue exactly the radiances their
    resolver wrote, in the order written, when the cancellation check
    before the queueing does not fire: no queued slot of [results] is
    left unwritten. *)
Theorem occlusion_handlers_queue_filled_slots fs isOccluded entries :
  let r1 := snd (computeOcclusion fs entries) in
  let r2 := computePresence fs entries in
  let r3 := computeGPU fs isOccluded entries in
  snd (bundleHandlerOutput (length entries) r1) = map (fun p => Some (snd p)) (snd (fst r1)) /\
  snd (bundleHandlerOutput (length entries) r2) = map (fun p => Some (snd p)) (snd (fst r2)) /\
  snd (bundleHandlerOutput (length entries) r3) = map (fun p => Some (snd p)) (snd (fst r3)).
Proof.
  cbv zeta. split; [|split]; apply bundleHandlerOutput_queue.
  - apply computeOcclusion_fills.
  - apply computePresence_fills.
  - apply computeGPU_fills.
Qed.

(** X7: the count computeOcclusionQueriesBundled returns is the number of
    entries that emit: every FORCE_NOT_OCCLUDED ray, and every STANDARD
    ray that the accelerator reports unoccluded, or while shadowing is
    disabled, or that has side data whose light has a non-zero
    clear-radius falloff distance with the ray's [maxT] below
    [clearRadius + falloffDistance]. *)
Theorem computeOcclusionQueriesBundled_count fs entries :
  fst (fst (snd (computeOcclusionQueriesBundled getTransmittance reduceTransparency listLight
                   accelOccluded fs entries))) =
  length (filter (fun r => emits fs (accelOccluded r) r) entries).
Proof.
  unfold computeOcclusionQueriesBundled.
  pose proof (partition_classes entries) as Hc.
  destruct (std_partition isStandard entries) as [a m].
  destruct Hc as (Hp & Hm & Hs & Hn).
  assert (HR : length (filter (fun r => emits fs (accelOccluded r) r) entries) =
                length (filter (fun r => emits fs (accelOccluded r) r) (firstn m a)) +
                length (skipn m a)).
  { rewrite (Permutation_filter_length _ _ _ Hp).
    rewrite <- (firstn_skipn m a) at 1. rewrite length_filter_app.
    rewrite (filter_true_length _ (skipn m a)); [reflexivity|].
    intros x Hx. rewrite (Hn x Hx). reflexivity. }
  rewrite HR.
  assert (E1 : fst (fst (if Nat.eqb m 0 then (0, [], [])
                 else areSingleRaysOccluded getTransmittance reduceTransparency listLight
                        accelOccluded fs (firstn m a))) =
               length (filter (fun r => emits fs (accelOccluded r) r) (firstn m a))).
  { destruct (Nat.eqb_spec m 0) as [->|_]; [reflexivity|].
    unfold areSingleRaysOccluded. rewrite cpuLoop_count; [reflexivity|].
    apply Forall_forall. exact Hs. }
  destruct (if Nat.eqb m 0 then (0, [], [])
            else areSingleRaysOccluded getTransmittance reduceTransparency listLight
                   accelOccluded fs (firstn m a)) as [[t w1] e1].
  simpl in E1.
  destruct (Nat.eqb_spec (length a - m) 0) as [Hz|Hnz].
  - simpl. rewrite length_skipn. lia.
  - unfold forceSingleRaysUnoccluded.
    destruct (forceLoop 0 (skipn m a)) as [w e]. simpl. rewrite length_skipn. lia.
Qed.

(** X8: the count computeXPUOcclusionQueriesOnGPU returns is the number of
    rays that emit under the same condition, the occlusion answer of the
    ray at position [i] being [isOccluded i]. *)
Theorem computeXPUOcclusionQueriesOnGPU_count fs isOccluded rays :
  fst (fst (computeGPU fs isOccluded rays)) =
  length (filter (fun p => emits fs (isOccluded (fst p)) (snd p)) (indexFrom 0 rays)).
Proof.
  unfold computeXPUOcclusionQueriesOnGPU.
  pose proof (gpuLoop_count fs isOccluded 0 0 rays) as H.
  destruct (gpuLoop fs isOccluded 0 0 rays) as [[n w] e]. exact H.
Qed.

(** X9: on a batch of STANDARD and FORCE_NOT_OCCLUDED rays, when the GPU
    occlusion buffer agrees with the CPU accelerator ray by ray, the GPU
    resolver and computeOcclusionQueriesBundled return the same count and
    the same radiances up to order. *)
Theorem gpu_cpu_batch_parity fs isOccluded rays :
  (forall i r, nth_error rays i = Some r -> isOccluded i = accelOccluded r) ->
  fst (fst (computeXPUOcclusionQueriesOnGPU getTransmittance reduceTransparency listLight
              fs isOccluded rays)) =
  fst (fst (snd (computeOcclusionQueriesBundled getTransmittance reduceTransparency listLight
                   accelOccluded fs rays))) /\
  Permutation (map snd (snd (fst (computeXPUOcclusionQueriesOnGPU getTransmittance
                                    reduceTransparency listLight fs isOccluded rays))))
              (map snd (snd (fst (snd (computeOcclusionQueriesBundled getTransmittance
                                         reduceTransparency listLight accelOccluded fs rays))))).
Proof.
  intros Hocc.
  assert (Hp : Permutation (map snd (snd (fst (computeGPU fs isOccluded rays))))
                           (map snd (snd (fst (snd (computeOcclusion fs rays)))))).
  { rewrite computeOcclusion_vals.
    assert (Hg : map snd (snd (fst (computeGPU fs isOccluded rays))) =
                 flat_map (fun r => rayVals fs r) rays).
    { unfold computeXPUOcclusionQueriesOnGPU.
      pose proof (gpuLoop_vals fs isOccluded 0 0 rays) as H.
      destruct (gpuLoop fs isOccluded 0 0 rays) as [[n w] e]. simpl in *.
      rewrite H. apply gpu_flat_vals. exact Hocc. }
    rewrite Hg. apply Permutation_flat_map.
    destruct (std_partition_spec isStandard rays) as (P1 & _). exact P1. }
  split; [|exact Hp].
  rewrite <- (fills_length _ _ (computeGPU_fills getTransmittance reduceTransparency listLight
                                  fs isOccluded rays)).
  rewrite <- (fills_length _ _ (computeOcclusion_fills getTransmittance reduceTransparency
                                  listLight accelOccluded fs rays)).
  rewrite <- (length_map snd), (Permutation_length Hp), length_map. reflexivity.
Qed.

Lemma cpuLoop_tested fs k l : occlusionTests (snd (cpuLoop fs k l)) = l.
Proof.
  revert k; induction l as [|r rest IH]; intros k; [reflexivity|].
  cbn [areSingleRaysOccluded_loop].
  pose proof (cpuBody_no_test getTransmittance reduceTransparency listLight accelOccluded
                isEqual fs (accelOccluded r) r) as Hb.
  destruct (cpuBody fs (accelOccluded r) r) as [filled ev]. simpl in Hb.
  specialize (IH (k + length filled)).
  destruct (cpuLoop fs (k + length filled) rest) as [[n w] e]. simpl in *.
  change (EvOccluded r :: ev ++ e) with ([EvOccluded r] ++ ev ++ e).
  rewrite !occlusionTests_app, IH, occlusionTests_nil by exact Hb. reflexivity.
Qed.

(** X10: computeOcclusionQueriesBundled submits to the accelerator each
    STANDARD ray of the batch exactly once, and no other ray. *)
Theorem computeOcclusionQueriesBundled_tests_standard_once fs entries :
  Permutation (occlusionTests (snd (snd (computeOcclusion fs entries))))
              (filter isStandard entries).
Proof.
  unfold computeOcclusionQueriesBundled.
  pose proof (partition_classes entries) as Hc.
  destruct (std_partition isStandard entries) as [a m].
  destruct Hc as (Hp & Hm & Hs & Hn).
  assert (HR : Permutation (filter isStandard entries) (firstn m a)).
  { eapply perm_trans; [apply Permutation_filter, Hp|].
    rewrite <- (firstn_skipn m a) at 1. rewrite filter_app.
    rewrite filter_all by exact Hs. rewrite filter_none by exact Hn.
    rewrite app_nil_r. reflexivity. }
  apply Permutation_sym in HR. eapply perm_trans; [|exact HR]. clear HR.
  assert (E1 : occlusionTests (snd (if Nat.eqb m 0 then (0, [], [])
                 else areSingleRaysOccluded getTransmittance reduceTransparency listLight
                        accelOccluded fs (firstn m a))) = firstn m a).
  { destruct (Nat.eqb_spec m 0) as [->|_]; [reflexivity|].
    apply cpuLoop_tested. }
  destruct (if Nat.eqb m 0 then (0, [], [])
            else areSingleRaysOccluded getTransmittance reduceTransparency listLight
                   accelOccluded fs (firstn m a)) as [[t w1] e1].
  simpl in E1.
  destruct (Nat.eqb (length a - m) 0).
  - simpl. rewrite app_nil_r, E1. reflexivity.
  - unfold forceSingleRaysUnoccluded.
    pose proof (forceLoop_no_test getTransmittance reduceTransparency listLight accelOccluded
                 accumulateRayPresence isEqual 0 (skipn m a)) as Hf.
    destruct (forceLoop 0 (skipn m a)) as [w e]. simpl in *.
    rewrite occlusionTests_app, E1, (occlusionTests_nil e) by exact Hf.
    rewrite app_nil_r. reflexivity.
Qed.

End OcclusionExtra.

(** ** Concrete runs of the occlusion resolvers *)

(** C8 (counterexample): [std::partition] does not keep the relative
    order of the [FORCE_NOT_OCCLUDED] rays: on rays 1, 2 (forced) and 3
    (standard) the partitioned array is 3, 2, 1, not 3, 1, 2. *)
Lemma computeOcclusion_partition_unstable :
  map mRayId
    (fst (computeOcclusionQueriesBundled sampleTransmittance sampleReduce sampleListLight
            (fun _ => false) shadowingOn
            [sampleOcclRay 1 FORCE_NOT_OCCLUDED 1 0;
             sampleOcclRay 2 FORCE_NOT_OCCLUDED 1 0;
             sampleOcclRay 3 STANDARD 1 0])) = [3; 2; 1].
Proof. vm_compute. reflexivity. Qed.



(** The C3 theorem on a standard ray reported occluded. *)
Lemma gpu_cpu_standard_parity_witness :
  let r := sampleOcclRay 1 STANDARD 2 1 in
  fst (computeXPUOcclusionQueriesOnGPU_body sampleTransmittance sampleReduce sampleListLight
         shadowingOn (fun _ => true) 0 r) =
    fst (areSingleRaysOccluded_body sampleTransmittance sampleReduce sampleListLight
           shadowingOn true r) /\
  snd (areSingleRaysOccluded_body sampleTransmittance sampleReduce sampleListLight
         shadowingOn true r) =
    snd (computeXPUOcclusionQueriesOnGPU_body sampleTransmittance sampleReduce sampleListLight
           shadowingOn (fun _ => true) 0 r) ++ [EvReleaseCryptomatteData 7].
Proof.
  exact (gpu_cpu_standard_parity sampleTransmittance sampleReduce sampleListLight
           shadowingOn (fun _ => true) 0 (sampleOcclRay 1 STANDARD 2 1) eq_refl).
Defined.

(** The C6 scenario: transmittance (1,1,1) and presence 0.4 scale the
    radiance (1,2,3) by 0.6. *)
Lemma presence_scales_radiance_and_aov_witness :
  let r := sampleOcclRay 1 STANDARD 2 1 in
  ceq (brRadiance (fst (computePresenceShadowsQueriesBundled_body (fun _ => sWhite)
                          sampleReduce sampleListLight (fun _ _ => (4 # 10)%Q) sampleIsEqual
                          shadowingOn r)))
      (cscale (6 # 10)%Q (mRadiance r)) /\
  ceq (cscale (1 - (4 # 10))%Q sWhite) (cscale (6 # 10)%Q sWhite).
Proof.
  destruct (presence_scales_radiance_and_aov (fun _ => sWhite) sampleReduce sampleListLight
              (fun _ _ => (4 # 10)%Q) sampleIsEqual shadowingOn [sampleOcclRay 1 STANDARD 2 1])
    as [_ H].
  destruct (H (sampleOcclRay 1 STANDARD 2 1)) as (_ & _ & H3).
  cbv zeta in H3.
  exact (H3 eq_refl eq_refl eq_refl eq_refl).
Defined.

(** ** Concrete runs of the ray bundle handler *)

(** C1 (the code): a batch whose only ray, state 4, hits geometry with no
    material leaves no sorted entry, yet the handler reads the first slot
    of the arena.  When that slot still holds a miss entry (key 0) for ray
    state 9, the handler retires it as a miss, frees ray state 9, which
    is not in the batch, together with ray state 4, and its dispatch loop
    starts past the end of the entries and never reaches it. *)
Theorem rayBundleHandler_stale_miss_run :
  let '(ev, ok) :=
    rayBundleHandler noMaterial (fun _ m => m) noVisibleLight sampleLightEval sampleReduce
      aovFrame staleArena hitPool [4] in
  In (EvFreeRayStates [4; 9]) ev /\ ok = false.
Proof. vm_compute. split; [right; right; left; reflexivity|reflexivity]. Qed.

(** The C4 theorem on the batch with keys 0, 0, 3, 1, 0, 3, 1, which
    sorts to 0, 0, 0, 1, 1, 3, 3. *)
Lemma sort_keys_grouped_witness :
  (let '(entries, maxSortKey, _, _) :=
     buildSortedEntries materialOfPrim (fun _ m => m) sampleReduce aovFrame keyPool
       (seq 0 7) ([], 0, [], []) in
   map mSortKey entries = [0; 0; 3; 1; 0; 3; 1] /\
   map mSortKey (smartSort32 (length entries) entries maxSortKey) = [0; 0; 0; 1; 1; 3; 3]) /\
  (let '(entries, maxSortKey, _, _) :=
     buildSortedEntries materialOfPrim (fun _ m => m) sampleReduce aovFrame keyPool
       (seq 0 7) ([], 0, [], []) in
   let sorted := smartSort32 (length entries) entries maxSortKey in
   (forall e, In e entries ->
      (mSortKey e = 0 <-> rsGeomID (keyPool (mRsIdx e)) = (-1)%Z) /\
      mSortKey e <= maxSortKey) /\
   bucketSort maxSortKey entries = comparisonSort entries /\
   Permutation entries sorted /\
   (forall d i j, i <= j < length sorted ->
      mSortKey (nth i sorted d) <= mSortKey (nth j sorted d)) /\
   (forall d i j k, i <= j -> j <= k -> k < length sorted ->
      mSortKey (nth i sorted d) = mSortKey (nth k sorted d) ->
      mSortKey (nth j sorted d) = mSortKey (nth i sorted d))).
Proof.
  split; [vm_compute; split; reflexivity|].
  apply (sort_keys_grouped materialOfPrim (fun _ m => m) sampleReduce aovFrame keyPool
           (seq 0 7)).
  intros rs m H. unfold materialOfPrim in H. injection H as <-. simpl.
  destruct (Z.to_nat (rsPrimID rs)); lia.
Defined.

(** C5 (counterexample): a non-primary miss (depth 1) that traversed a
    volume gets alpha 0, where the five-case policy gives
    pixel weight * (1 - reduced volume alpha transmittance) = 1. *)
Lemma miss_nonprimary_volume_alpha :
  brAlpha (fst (missEntry noVisibleLight sampleLightEval sampleReduce aovFrame 0
                  (sampleRayState (-1) 0 1 true))) = 0%Q /\
  (rsPathPixelWeight (sampleRayState (-1) 0 1 true) *
   (1 - sampleReduce (rsVolTalpha (sampleRayState (-1) 0 1 true))) == 1)%Q.
Proof. vm_compute. split; reflexivity. Qed.

(** The C5 theorem on a non-primary miss without volume. *)
Lemma miss_radiance_alpha_witness :
  ceq (brRadiance (fst (missEntry sampleVisibleLight sampleLightEval sampleReduce aovFrame 0
                          (sampleRayState (-1) 0 1 false)))) sBlack /\
  brAlpha (fst (missEntry sampleVisibleLight sampleLightEval sampleReduce aovFrame 0
                  (sampleRayState (-1) 0 1 false))) = 0%Q.
Proof.
  destruct (miss_radiance_alpha sampleVisibleLight sampleLightEval sampleReduce aovFrame 0
              (sampleRayState (-1) 0 1 false)) as (_ & _ & H3).
  cbv zeta in H3.
  apply H3; [reflexivity|unfold ceq; simpl; repeat split; reflexivity|left; discriminate].
Defined.

(** The C9 theorem on a primary miss that sees a light opaque in alpha,
    with lpeStateId 3 and a non-empty AOV schema. *)
Lemma primary_miss_skips_light_lpe_witness :
  existsb isLightEventTransition
    (snd (missEntry sampleVisibleLight sampleLightEval sampleReduce aovFrame 0
            (sampleRayState (-1) 0 0 false))) = false /\
  existsb isLightAovsBundled
    (snd (missEntry sampleVisibleLight sampleLightEval sampleReduce aovFrame 0
            (sampleRayState (-1) 0 0 false))) = false.
Proof.
  exact (primary_miss_skips_light_lpe sampleVisibleLight sampleLightEval sampleReduce aovFrame 0
           (sampleRayState (-1) 0 0 false) eq_refl).
Defined.

(** The X2 theorem on the keyed pool of seven ray states, a stale arena
    and an AOV frame, the material of a hit being its primitive id. *)
Lemma rayBundleHandler_frees_or_forwards_each_ray_witness :
  existsb (fun i => Z.eqb (rsGeomID (keyPool i)) (-1) ||
                    match materialOfPrim (keyPool i) with Some _ => true | None => false end)
          (seq 0 7) = true /\
  let '(ev, ok) := rayBundleHandler materialOfPrim (fun _ m => m) sampleVisibleLight
                     sampleLightEval sampleReduce aovFrame staleArena keyPool (seq 0 7) in
  ok = true /\
  Permutation (freedStates ev)
    (filter (fun i => Z.eqb (rsGeomID (keyPool i)) (-1) ||
                      match materialOfPrim (keyPool i) with Some _ => false | None => true end)
            (seq 0 7)) /\
  Permutation (forwardedStates ev)
    (filter (fun i => negb (Z.eqb (rsGeomID (keyPool i)) (-1)) &&
                      match materialOfPrim (keyPool i) with Some _ => true | None => false end)
            (seq 0 7)).
Proof.
  split; [vm_compute; reflexivity|].
  apply (rayBundleHandler_frees_or_forwards_each_ray materialOfPrim (fun _ m => m)
           sampleVisibleLight sampleLightEval sampleReduce).
  - intros rs m H. unfold materialOfPrim in H. injection H as <-. simpl.
    destruct (Z.to_nat (rsPrimID rs)); lia.
  - vm_compute. reflexivity.
Defined.

(** The X3 theorem on the same batch. *)
Lemma rayBundleHandler_shade_calls_by_material_witness :
  existsb (fun i => Z.eqb (rsGeomID (keyPool i)) (-1) ||
                    match materialOfPrim (keyPool i) with Some _ => true | None => false end)
          (seq 0 7) = true /\
  let ev := fst (rayBundleHandler materialOfPrim (fun _ m => m) sampleVisibleLight
                   sampleLightEval sampleReduce aovFrame staleArena keyPool (seq 0 7)) in
  Forall (fun c => snd c <> [] /\
     exists mt, fst c = Some mt /\
       Forall (fun x => rsGeomID (keyPool (fst x)) <> (-1)%Z /\
                        snd x = shadeSortKey (keyPool (fst x)) /\
                        exists m0, materialOfPrim (keyPool (fst x)) = Some m0 /\
                          getMaterialId m0 = getMaterialId mt)
              (snd c))
    (shadeCalls ev) /\
  StronglySorted lt
    (map (fun c => match fst c with Some mt => getMaterialId mt | None => 0 end) (shadeCalls ev)).
Proof.
  split; [vm_compute; reflexivity|].
  apply (rayBundleHandler_shade_calls_by_material materialOfPrim (fun _ m => m)
           sampleVisibleLight sampleLightEval sampleReduce).
  - intros rs m H. unfold materialOfPrim in H. injection H as <-. simpl.
    destruct (Z.to_nat (rsPrimID rs)); lia.
  - vm_compute. reflexivity.
Defined.

(** The X4 theorem on the same batch. *)
Lemma rayBundleHandler_queued_radiances_witness :
  existsb (fun i => Z.eqb (rsGeomID (keyPool i)) (-1) ||
                    match materialOfPrim (keyPool i) with Some _ => true | None => false end)
          (seq 0 7) = true /\
  Permutation
    (queuedRadiances (fst (rayBundleHandler materialOfPrim (fun _ m => m) sampleVisibleLight
                             sampleLightEval sampleReduce aovFrame staleArena keyPool (seq 0 7))))
    (map (fun i : nat =>
            mkBundledRadiance (rsVolRad (keyPool i))
              (if Nat.eqb (rsDepth (keyPool i)) 0 then
                 Qmult (rsPathPixelWeight (keyPool i))
                       (Qminus 1 (sampleReduce (rsVolTalpha (keyPool i))))
               else 0%Q) (rsPathPixelWeight (keyPool i))
              (rsPixel (keyPool i)) (rsDeepDataHandle (keyPool i))
              (rsCryptomatteDataHandle (keyPool i)))
       (filter (fun i => negb (Z.eqb (rsGeomID (keyPool i)) (-1)) &&
                         match materialOfPrim (keyPool i) with
                         | Some _ => false | None => true end && rsVolHit (keyPool i)) (seq 0 7)) ++
     map (fun i => fst (missEntry sampleVisibleLight sampleLightEval sampleReduce aovFrame i
                          (keyPool i)))
       (filter (fun i => Z.eqb (rsGeomID (keyPool i)) (-1)) (seq 0 7))).
Proof.
  split; [vm_compute; reflexivity|].
  apply (rayBundleHandler_queued_radiances materialOfPrim (fun _ m => m)
           sampleVisibleLight sampleLightEval sampleReduce).
  - intros rs m H. unfold materialOfPrim in H. injection H as <-. simpl.
    destruct (Z.to_nat (rsPrimID rs)); lia.
  - vm_compute. reflexivity.
Defined.

(** The X9 theorem on a batch of one FORCE_NOT_OCCLUDED ray and two
    STANDARD rays, the second ray being the only occluded one for both the
    GPU buffer and the accelerator. *)
Lemma gpu_cpu_batch_parity_witness :
  (forall i r, nth_error [sampleOcclRay 1 FORCE_NOT_OCCLUDED 1 0;
                          sampleOcclRay 2 STANDARD 2 1; sampleOcclRay 3 STANDARD 5 2] i = Some r ->
               Nat.eqb i 1 = Nat.eqb (mRayId r) 2) /\
  fst (fst (computeXPUOcclusionQueriesOnGPU sampleTransmittance sampleReduce sampleListLight
              shadowingOn (fun i => Nat.eqb i 1)
              [sampleOcclRay 1 FORCE_NOT_OCCLUDED 1 0;
               sampleOcclRay 2 STANDARD 2 1; sampleOcclRay 3 STANDARD 5 2])) =
  fst (fst (snd (computeOcclusionQueriesBundled sampleTransmittance sampleReduce sampleListLight
                   (fun r => Nat.eqb (mRayId r) 2) shadowingOn
                   [sampleOcclRay 1 FORCE_NOT_OCCLUDED 1 0;
                    sampleOcclRay 2 STANDARD 2 1; sampleOcclRay 3 STANDARD 5 2]))) /\
  Permutation
    (map snd (snd (fst (computeXPUOcclusionQueriesOnGPU sampleTransmittance sampleReduce
                          sampleListLight shadowingOn (fun i => Nat.eqb i 1)
                          [sampleOcclRay 1 FORCE_NOT_OCCLUDED 1 0;
                           sampleOcclRay 2 STANDARD 2 1; sampleOcclRay 3 STANDARD 5 2]))))
    (map snd (snd (fst (snd (computeOcclusionQueriesBundled sampleTransmittance sampleReduce
                               sampleListLight (fun r => Nat.eqb (mRayId r) 2) shadowingOn
                               [sampleOcclRay 1 FORCE_NOT_OCCLUDED 1 0;
                                sampleOcclRay 2 STANDARD 2 1; sampleOcclRay 3 STANDARD 5 2]))))).
Proof.
  assert (Hocc : forall i r, nth_error [sampleOcclRay 1 FORCE_NOT_OCCLUDED 1 0;
                          sampleOcclRay 2 STANDARD 2 1; sampleOcclRay 3 STANDARD 5 2] i = Some r ->
               Nat.eqb i 1 = Nat.eqb (mRayId r) 2).
  { intros [|[|[|i]]] r H; simpl in H; try (destruct i; discriminate);
      injection H as <-; reflexivity. }
  split; [exact Hocc|].
  exact (gpu_cpu_batch_parity sampleTransmittance sampleReduce sampleListLight
           (fun r => Nat.eqb (mRayId r) 2) shadowingOn (fun i => Nat.eqb i 1) _ Hocc).
Defined.
